(** * The gRPC AsyncIO transport of the Cloud Asset service

    A shallow embedding of
    [google/cloud/asset_v1/services/asset_service/transports/grpc_asyncio.py]
    (class [AssetServiceGrpcAsyncIOTransport]) and the properties of its
    channel cache, its stub table and its constructor.

    The class is plumbing over libraries it does not own: the gRPC helper
    that opens channels, the channel's [unary_unary] stub factory, the
    operations client, the SSL credential sources and the base transport
    class.  They are modelled as a [Runtime]: one oracle per external
    function, which sees the history of external calls made so far and
    either returns a value or raises.  Every external call is appended to
    a trace, so that "creates", "does not create" and "passes exactly these
    arguments" are statements about the trace. *)

From stdpp Require Import base option list strings gmap fin_maps.

Open Scope string_scope.
Open Scope list_scope.

(** ** Python values *)

(** Objects of the external libraries (channels, stubs, clients, credential
    objects, callbacks) are known by their identity only. *)
Definition Obj := nat.

Definition bytes := list Byte.byte.

(** The values that travel through the untyped argument positions
    ([credentials], the values of [**kwargs]). *)
Inductive PyVal :=
| VNone
| VBool (b : bool)
| VStr (s : string)
| VObj (o : Obj).

(** Python's [a or b] on an optional sequence of strings: [a] when it is
    truthy (neither [None] nor empty), [b] otherwise. *)
Definition seq_truthy (a : option (list string)) : bool :=
  match a with
  | Some (_ :: _) => true
  | _ => false
  end.

Definition seq_or (a : option (list string)) (b : list string) : option (list string) :=
  if seq_truthy a then a else Some b.

(** [sub in s] on strings. *)
Fixpoint str_in (sub s : string) : bool :=
  String.prefix sub s ||
  match s with
  | EmptyString => false
  | String _ s' => str_in sub s'
  end.

(** ** Exceptions and outcomes *)

Inductive Exn :=
| AttributeError (attr : string)
| KeyError (key : string)
| Raised (cls msg : string).

Inductive outcome (A : Type) :=
| Ok (a : A)
| Raise (e : Exn).
Arguments Ok {A} a.
Arguments Raise {A} e.

Definition outcome_map {A B} (f : A -> B) (r : outcome A) : outcome B :=
  match r with
  | Ok a => Ok (f a)
  | Raise e => Raise e
  end.

(** ** The protobuf marshalling functions handed to gRPC *)

Inductive Message :=
| ExportAssetsRequest
| BatchGetAssetsHistoryRequest
| BatchGetAssetsHistoryResponse
| CreateFeedRequest
| GetFeedRequest
| ListFeedsRequest
| ListFeedsResponse
| UpdateFeedRequest
| DeleteFeedRequest
| SearchAllResourcesRequest
| SearchAllResourcesResponse
| SearchAllIamPoliciesRequest
| SearchAllIamPoliciesResponse
| Feed
| Operation
| Empty.

(** [t.serialize] and [t.deserialize] are the class methods of a proto-plus
    message of [asset_service]; [t.FromString] is the parser of a raw protobuf
    message ([operations.Operation], [empty.Empty]). *)
Inductive Codec :=
| serialize (t : Message)
| deserialize (t : Message)
| FromString (t : Message).

(** ** External calls and their trace *)

Inductive Call :=
| Call_create_channel (host : string) (credentials : PyVal)
    (credentials_file : option string) (scopes : option (list string))
    (quota_project_id : option string) (kwargs : list (string * PyVal))
| Call_unary_unary (channel : Obj) (path : string)
    (request_serializer response_deserializer : Codec)
| Call_OperationsAsyncClient (channel : Obj)
| Call_client_cert_source (callback : Obj)
| Call_ssl_channel_credentials (certificate_chain private_key : bytes)
| Call_SslCredentials
| Call_base_init (host : string) (credentials : PyVal)
    (credentials_file : option string) (scopes : option (list string))
    (quota_project_id : option string).

Inductive Reply :=
| RObj (o : Obj)
| RPair (cert key : bytes)
| RAttrs (host : string) (credentials : PyVal).

Definition Event : Type := Call * outcome Reply.
Definition Trace : Type := list Event.

(** The libraries the transport calls into.  Each oracle sees the trace of
    the calls made before it.  [rt_base_init] is the constructor of the base
    class [AssetServiceTransport], of the module [.base], whose source is not
    part of this file: it is taken as it comes, as a call that answers with
    the values it stores in [self._host] and [self._credentials], the two
    attributes this class reads back, and that leaves [_grpc_channel] and
    [_stubs] alone. *)
Record Runtime := {
  rt_create_channel :
    Trace -> string -> PyVal -> option string -> option (list string) ->
    option string -> list (string * PyVal) -> outcome Obj;
  rt_unary_unary : Trace -> Obj -> string -> Codec -> Codec -> outcome Obj;
  rt_OperationsAsyncClient : Trace -> Obj -> outcome Obj;
  rt_client_cert_source : Trace -> Obj -> outcome (bytes * bytes);
  rt_ssl_channel_credentials : Trace -> bytes -> bytes -> outcome Obj;
  rt_SslCredentials : Trace -> outcome Obj;
  rt_base_init :
    Trace -> string -> PyVal -> option string -> option (list string) ->
    option string -> outcome (string * PyVal)
}.

(** ** The state and error monad *)

Definition M (S A : Type) : Type := S -> outcome A * S.

Global Instance M_ret {S} : MRet (M S) := fun A a s => (Ok a, s).

Global Instance M_bind {S} : MBind (M S) :=
  fun A B k m s =>
    match m s with
    | (Ok a, s') => k a s'
    | (Raise e, s') => (Raise e, s')
    end.

(** Computations of the class and of the constructor run against the trace
    alone. *)
Definition W (A : Type) : Type := M Trace A.

(** ** Instances *)

(** The attributes of an instance.  [_grpc_channel = None] is an instance
    without that attribute ([hasattr] is false: the class body only
    annotates it).  [dict_operations_client] is the entry
    [self.__dict__["operations_client"]]. *)
Record Instance := {
  _grpc_channel : option Obj;
  _stubs : gmap string Obj;
  _host : string;
  _credentials : PyVal;
  dict_operations_client : option Obj
}.

(** Attribute and item assignment on an instance. *)
Definition set_grpc_channel (ch : Obj) (i : Instance) : Instance :=
  {| _grpc_channel := Some ch;
     _stubs := _stubs i;
     _host := _host i;
     _credentials := _credentials i;
     dict_operations_client := dict_operations_client i |}.

Definition set_stub (name : string) (stub : Obj) (i : Instance) : Instance :=
  {| _grpc_channel := _grpc_channel i;
     _stubs := <[name := stub]> (_stubs i);
     _host := _host i;
     _credentials := _credentials i;
     dict_operations_client := dict_operations_client i |}.

Definition set_operations_client (c : Obj) (i : Instance) : Instance :=
  {| _grpc_channel := _grpc_channel i;
     _stubs := _stubs i;
     _host := _host i;
     _credentials := _credentials i;
     dict_operations_client := Some c |}.

Record St := {
  self : Instance;
  world : Trace
}.

(** Computations of the properties run against the instance and the trace. *)
Definition P (A : Type) : Type := M St A.

Definition lift {A} (m : W A) : P A :=
  fun st =>
    let '(r, tr) := m (world st) in
    (r, {| self := self st; world := tr |}).

Definition hasattr_grpc_channel : P bool :=
  fun st => (Ok (bool_decide (is_Some (_grpc_channel (self st)))), st).

Definition getattr_grpc_channel : P Obj :=
  fun st =>
    match _grpc_channel (self st) with
    | Some ch => (Ok ch, st)
    | None => (Raise (AttributeError "_grpc_channel"), st)
    end.

Definition setattr_grpc_channel (ch : Obj) : P unit :=
  fun st => (Ok tt, {| self := set_grpc_channel ch (self st); world := world st |}).

Definition getattr_host : P string := fun st => (Ok (_host (self st)), st).

Definition getattr_credentials : P PyVal :=
  fun st => (Ok (_credentials (self st)), st).

(** [name in self._stubs], [self._stubs[name] = stub], [self._stubs[name]]. *)
Definition stubs_contains (name : string) : P bool :=
  fun st => (Ok (bool_decide (is_Some (_stubs (self st) !! name))), st).

Definition stubs_setitem (name : string) (stub : Obj) : P unit :=
  fun st => (Ok tt, {| self := set_stub name stub (self st); world := world st |}).

Definition stubs_getitem (name : string) : P Obj :=
  fun st =>
    match _stubs (self st) !! name with
    | Some stub => (Ok stub, st)
    | None => (Raise (KeyError name), st)
    end.

(** ["operations_client" in self.__dict__] and the two subscripts on it. *)
Definition dict_contains_operations_client : P bool :=
  fun st => (Ok (bool_decide (is_Some (dict_operations_client (self st)))), st).

Definition dict_setitem_operations_client (c : Obj) : P unit :=
  fun st => (Ok tt, {| self := set_operations_client c (self st); world := world st |}).

Definition dict_getitem_operations_client : P Obj :=
  fun st =>
    match dict_operations_client (self st) with
    | Some c => (Ok c, st)
    | None => (Raise (KeyError "operations_client"), st)
    end.

(** ** The remote methods of the service

    One constructor per method of [google.cloud.asset.v1.AssetService].  The
    request and response messages are those of the signature of each property,
    [Callable[[Request], Awaitable[Response]]]. *)
Inductive Method :=
| ExportAssets
| BatchGetAssetsHistory
| CreateFeed
| GetFeed
| ListFeeds
| UpdateFeed
| DeleteFeed
| SearchAllResources
| SearchAllIamPolicies.

Definition all_methods : list Method :=
  [ExportAssets; BatchGetAssetsHistory; CreateFeed; GetFeed; ListFeeds;
   UpdateFeed; DeleteFeed; SearchAllResources; SearchAllIamPolicies].

Definition rpc_name (m : Method) : string :=
  match m with
  | ExportAssets => "ExportAssets"
  | BatchGetAssetsHistory => "BatchGetAssetsHistory"
  | CreateFeed => "CreateFeed"
  | GetFeed => "GetFeed"
  | ListFeeds => "ListFeeds"
  | UpdateFeed => "UpdateFeed"
  | DeleteFeed => "DeleteFeed"
  | SearchAllResources => "SearchAllResources"
  | SearchAllIamPolicies => "SearchAllIamPolicies"
  end.

(** The name of the property, which is also the key of the stub table. *)
Definition method_name (m : Method) : string :=
  match m with
  | ExportAssets => "export_assets"
  | BatchGetAssetsHistory => "batch_get_assets_history"
  | CreateFeed => "create_feed"
  | GetFeed => "get_feed"
  | ListFeeds => "list_feeds"
  | UpdateFeed => "update_feed"
  | DeleteFeed => "delete_feed"
  | SearchAllResources => "search_all_resources"
  | SearchAllIamPolicies => "search_all_iam_policies"
  end.

Definition request_type (m : Method) : Message :=
  match m with
  | ExportAssets => ExportAssetsRequest
  | BatchGetAssetsHistory => BatchGetAssetsHistoryRequest
  | CreateFeed => CreateFeedRequest
  | GetFeed => GetFeedRequest
  | ListFeeds => ListFeedsRequest
  | UpdateFeed => UpdateFeedRequest
  | DeleteFeed => DeleteFeedRequest
  | SearchAllResources => SearchAllResourcesRequest
  | SearchAllIamPolicies => SearchAllIamPoliciesRequest
  end.

Definition response_type (m : Method) : Message :=
  match m with
  | ExportAssets => Operation
  | BatchGetAssetsHistory => BatchGetAssetsHistoryResponse
  | CreateFeed => Feed
  | GetFeed => Feed
  | ListFeeds => ListFeedsResponse
  | UpdateFeed => Feed
  | DeleteFeed => Empty
  | SearchAllResources => SearchAllResourcesResponse
  | SearchAllIamPolicies => SearchAllIamPoliciesResponse
  end.

(** The fully-qualified gRPC path of a method: [/package.Service/Method]. *)
Definition rpc_path (m : Method) : string :=
  "/google.cloud.asset.v1.AssetService/" +:+ rpc_name m.

(** [Operation] and [Empty] are raw protobuf messages, parsed with
    [FromString]; the messages of [asset_service] are proto-plus messages. *)
Definition raw_protobuf (t : Message) : bool :=
  match t with
  | Operation | Empty => true
  | _ => false
  end.

Definition request_serializer (m : Method) : Codec := serialize (request_type m).

Definition response_deserializer (m : Method) : Codec :=
  if raw_protobuf (response_type m) then FromString (response_type m)
  else deserialize (response_type m).

Definition is_unary_unary (ev : Event) : bool :=
  match fst ev with
  | Call_unary_unary _ _ _ _ => true
  | _ => false
  end.

(** A channel came into being: a [create_channel] call of the helper that
    returned. *)
Definition is_channel_created (ev : Event) : bool :=
  match ev with
  | (Call_create_channel _ _ _ _ _ _, Ok _) => true
  | _ => false
  end.

Definition channels_created (tr : Trace) : nat :=
  length (List.filter is_channel_created tr).

Definition returned (ev : Event) : Prop :=
  match snd ev with
  | Ok _ => True
  | Raise _ => False
  end.

(** How the outcome [r] of an operation relates to the external calls [evs]
    it made when nothing is caught, wrapped or replaced: a result means every
    call returned; an exception [e] is the one the last call raised, and every
    call before it returned. *)
Definition surfaced {A} (r : outcome A) (evs : Trace) : Prop :=
  match r with
  | Ok _ => Forall returned evs
  | Raise e => exists evs' c, evs = evs' ++ [(c, Raise e)] /\ Forall returned evs'
  end.

(** ** Invariants of an instance *)

(** What an instance keeps from one state to a later one: the channel, the
    stubs and the operations client it holds, its host and credentials, and
    the trace so far; and while it holds a channel, no channel is created. *)
Record extends (st st' : St) : Prop := {
  ext_host : _host (self st') = _host (self st);
  ext_credentials : _credentials (self st') = _credentials (self st);
  ext_channel ch :
    _grpc_channel (self st) = Some ch ->
    _grpc_channel (self st') = Some ch /\
    channels_created (world st') = channels_created (world st);
  ext_stubs name stub :
    _stubs (self st) !! name = Some stub -> _stubs (self st') !! name = Some stub;
  ext_client c :
    dict_operations_client (self st) = Some c ->
    dict_operations_client (self st') = Some c;
  ext_world : exists evs, world st' = world st ++ evs
}.

(** Every stub in the table is what [unary_unary] returned on the channel of
    the instance for the path and the marshalling functions of the method the
    stub is stored under. *)
Definition stubs_ok (st : St) : Prop :=
  forall name stub,
    _stubs (self st) !! name = Some stub ->
    exists m ch,
      name = method_name m /\
      _grpc_channel (self st) = Some ch /\
      (Call_unary_unary ch (rpc_path m) (request_serializer m) (response_deserializer m),
       Ok (RObj stub)) ∈ world st.

(** Since the trace [tr0] the instance was built on, at most one channel was
    created, and if one was, the instance holds a channel. *)
Definition one_channel (tr0 : Trace) (st : St) : Prop :=
  exists evs,
    world st = tr0 ++ evs /\
    (channels_created evs = 0 \/
     (channels_created evs = 1 /\ is_Some (_grpc_channel (self st)))).

(** ** What the calls of a run are made on *)

(** A call on the channel [ch] that is no call of the channel helper. *)
Definition uses_channel (ch : Obj) (ev : Event) : Prop :=
  match fst ev with
  | Call_unary_unary c _ _ _ => c = ch
  | Call_OperationsAsyncClient c => c = ch
  | Call_create_channel _ _ _ _ _ _ => False
  | _ => True
  end.






(** The operations client of the instance is what [OperationsAsyncClient]
    returned on the channel of the instance. *)
Definition client_ok (st : St) : Prop :=
  forall c,
    dict_operations_client (self st) = Some c ->
    exists ch,
      _grpc_channel (self st) = Some ch /\
      (Call_OperationsAsyncClient ch, Ok (RObj c)) ∈ world st.


Definition is_base_init (ev : Event) : bool :=
  match fst ev with
  | Call_base_init _ _ _ _ _ => true
  | _ => false
  end.



(** ** The class *)

Section Transport.

(** [AUTH_SCOPES] is inherited from the base class. *)
Variable AUTH_SCOPES : list string.
Variable rt : Runtime.

(** An external call: ask the oracle, log the call with its reply. *)
Definition perform {A} (c : Call) (inj : A -> Reply) (oracle : Trace -> outcome A) : W A :=
  fun tr => let r := oracle tr in (r, tr ++ [(c, outcome_map inj r)]).

Definition grpc_helpers_async_create_channel (host : string) (credentials : PyVal)
    (credentials_file : option string) (scopes : option (list string))
    (quota_project_id : option string) (kwargs : list (string * PyVal)) : W Obj :=
  perform (Call_create_channel host credentials credentials_file scopes quota_project_id kwargs)
    RObj
    (fun tr => rt_create_channel rt tr host credentials credentials_file scopes
                 quota_project_id kwargs).

Definition unary_unary (channel : Obj) (path : string)
    (request_serializer response_deserializer : Codec) : W Obj :=
  perform (Call_unary_unary channel path request_serializer response_deserializer)
    RObj
    (fun tr => rt_unary_unary rt tr channel path request_serializer response_deserializer).

Definition OperationsAsyncClient (channel : Obj) : W Obj :=
  perform (Call_OperationsAsyncClient channel) RObj
    (fun tr => rt_OperationsAsyncClient rt tr channel).

Definition call_client_cert_source (callback : Obj) : W (bytes * bytes) :=
  perform (Call_client_cert_source callback) (fun ck => RPair (fst ck) (snd ck))
    (fun tr => rt_client_cert_source rt tr callback).

Definition ssl_channel_credentials (certificate_chain private_key : bytes) : W Obj :=
  perform (Call_ssl_channel_credentials certificate_chain private_key) RObj
    (fun tr => rt_ssl_channel_credentials rt tr certificate_chain private_key).

Definition SslCredentials_ssl_credentials : W Obj :=
  perform Call_SslCredentials RObj (fun tr => rt_SslCredentials rt tr).

Definition base_init (host : string) (credentials : PyVal)
    (credentials_file : option string) (scopes : option (list string))
    (quota_project_id : option string) : W (string * PyVal) :=
  perform (Call_base_init host credentials credentials_file scopes quota_project_id)
    (fun hc => RAttrs (fst hc) (snd hc))
    (fun tr => rt_base_init rt tr host credentials credentials_file scopes quota_project_id).

(** [create_channel] (class method, lines 52-91). *)
Definition create_channel (host : string) (credentials : PyVal)
    (credentials_file : option string) (scopes : option (list string))
    (quota_project_id : option string) (kwargs : list (string * PyVal)) : W Obj :=
  let scopes := seq_or scopes AUTH_SCOPES in
  grpc_helpers_async_create_channel host credentials credentials_file scopes
    quota_project_id kwargs.

(** [__init__] (lines 93-183).  [channel] and [client_cert_source] are
    objects, truthy whenever they are given; [api_mtls_endpoint] is a string,
    truthy when given and not empty. *)
Definition __init__ (host : string) (credentials : PyVal)
    (credentials_file : option string) (scopes : option (list string))
    (channel : option Obj) (api_mtls_endpoint : option string)
    (client_cert_source : option Obj) (quota_project_id : option string) : W Instance :=
  '(host, credentials, chan) ←
    match channel with
    | Some ch => mret (host, VBool false, Some ch)
    | None =>
      match api_mtls_endpoint with
      | Some (String _ _ as endpoint) =>
        let host := if str_in ":" endpoint then endpoint else endpoint +:+ ":443" in
        ssl_credentials ←
          match client_cert_source with
          | Some cb =>
            '(cert, key) ← call_client_cert_source cb;
            ssl_channel_credentials cert key
          | None => SslCredentials_ssl_credentials
          end;
        ch ← create_channel host credentials credentials_file
               (seq_or scopes AUTH_SCOPES) quota_project_id
               [("ssl_credentials", VObj ssl_credentials)];
        mret (host, credentials, Some ch)
      | _ => mret (host, credentials, None)
      end
    end;
  '(stored_host, stored_credentials) ←
    base_init host credentials credentials_file (seq_or scopes AUTH_SCOPES)
      quota_project_id;
  mret {| _grpc_channel := chan;
          _stubs := ∅;
          _host := stored_host;
          _credentials := stored_credentials;
          dict_operations_client := None |}.

(** [grpc_channel] (property, lines 185-200). *)
Definition grpc_channel : P Obj :=
  has ← hasattr_grpc_channel;
  (if negb has then
     host ← getattr_host;
     credentials ← getattr_credentials;
     ch ← lift (create_channel host credentials None None None []);
     setattr_grpc_channel ch
   else mret tt);;
  getattr_grpc_channel.

(** [operations_client] (property, lines 202-216). *)
Definition operations_client : P Obj :=
  has ← dict_contains_operations_client;
  (if negb has then
     ch ← grpc_channel;
     client ← lift (OperationsAsyncClient ch);
     dict_setitem_operations_client client
   else mret tt);;
  dict_getitem_operations_client.

(** [export_assets] (property, lines 218-254). *)
Definition export_assets : P Obj :=
  has ← stubs_contains "export_assets";
  (if negb has then
     ch ← grpc_channel;
     stub ← lift (unary_unary ch
               "/google.cloud.asset.v1.AssetService/ExportAssets"
               (serialize ExportAssetsRequest)
               (FromString Operation));
     stubs_setitem "export_assets" stub
   else mret tt);;
  stubs_getitem "export_assets".

(** [batch_get_assets_history] (property, lines 256-289). *)
Definition batch_get_assets_history : P Obj :=
  has ← stubs_contains "batch_get_assets_history";
  (if negb has then
     ch ← grpc_channel;
     stub ← lift (unary_unary ch
               "/google.cloud.asset.v1.AssetService/BatchGetAssetsHistory"
               (serialize BatchGetAssetsHistoryRequest)
               (deserialize BatchGetAssetsHistoryResponse));
     stubs_setitem "batch_get_assets_history" stub
   else mret tt);;
  stubs_getitem "batch_get_assets_history".

(** [create_feed] (property, lines 291-317). *)
Definition create_feed : P Obj :=
  has ← stubs_contains "create_feed";
  (if negb has then
     ch ← grpc_channel;
     stub ← lift (unary_unary ch
               "/google.cloud.asset.v1.AssetService/CreateFeed"
               (serialize CreateFeedRequest)
               (deserialize Feed));
     stubs_setitem "create_feed" stub
   else mret tt);;
  stubs_getitem "create_feed".

(** [get_feed] (property, lines 319-343). *)
Definition get_feed : P Obj :=
  has ← stubs_contains "get_feed";
  (if negb has then
     ch ← grpc_channel;
     stub ← lift (unary_unary ch
               "/google.cloud.asset.v1.AssetService/GetFeed"
               (serialize GetFeedRequest)
               (deserialize Feed));
     stubs_setitem "get_feed" stub
   else mret tt);;
  stubs_getitem "get_feed".

(** [list_feeds] (property, lines 345-372). *)
Definition list_feeds : P Obj :=
  has ← stubs_contains "list_feeds";
  (if negb has then
     ch ← grpc_channel;
     stub ← lift (unary_unary ch
               "/google.cloud.asset.v1.AssetService/ListFeeds"
               (serialize ListFeedsRequest)
               (deserialize ListFeedsResponse));
     stubs_setitem "list_feeds" stub
   else mret tt);;
  stubs_getitem "list_feeds".

(** [update_feed] (property, lines 374-398). *)
Definition update_feed : P Obj :=
  has ← stubs_contains "update_feed";
  (if negb has then
     ch ← grpc_channel;
     stub ← lift (unary_unary ch
               "/google.cloud.asset.v1.AssetService/UpdateFeed"
               (serialize UpdateFeedRequest)
               (deserialize Feed));
     stubs_setitem "update_feed" stub
   else mret tt);;
  stubs_getitem "update_feed".

(** [delete_feed] (property, lines 400-424). *)
Definition delete_feed : P Obj :=
  has ← stubs_contains "delete_feed";
  (if negb has then
     ch ← grpc_channel;
     stub ← lift (unary_unary ch
               "/google.cloud.asset.v1.AssetService/DeleteFeed"
               (serialize DeleteFeedRequest)
               (FromString Empty));
     stubs_setitem "delete_feed" stub
   else mret tt);;
  stubs_getitem "delete_feed".

(** [search_all_resources] (property, lines 426-457). *)
Definition search_all_resources : P Obj :=
  has ← stubs_contains "search_all_resources";
  (if negb has then
     ch ← grpc_channel;
     stub ← lift (unary_unary ch
               "/google.cloud.asset.v1.AssetService/SearchAllResources"
               (serialize SearchAllResourcesRequest)
               (deserialize SearchAllResourcesResponse));
     stubs_setitem "search_all_resources" stub
   else mret tt);;
  stubs_getitem "search_all_resources".

(** [search_all_iam_policies] (property, lines 459-490). *)
Definition search_all_iam_policies : P Obj :=
  has ← stubs_contains "search_all_iam_policies";
  (if negb has then
     ch ← grpc_channel;
     stub ← lift (unary_unary ch
               "/google.cloud.asset.v1.AssetService/SearchAllIamPolicies"
               (serialize SearchAllIamPoliciesRequest)
               (deserialize SearchAllIamPoliciesResponse));
     stubs_setitem "search_all_iam_policies" stub
   else mret tt);;
  stubs_getitem "search_all_iam_policies".

(** The properties of the class, in the order of the class body. *)
Definition properties : list (string * P Obj) :=
  [ ("grpc_channel", grpc_channel);
    ("operations_client", operations_client);
    ("export_assets", export_assets);
    ("batch_get_assets_history", batch_get_assets_history);
    ("create_feed", create_feed);
    ("get_feed", get_feed);
    ("list_feeds", list_feeds);
    ("update_feed", update_feed);
    ("delete_feed", delete_feed);
    ("search_all_resources", search_all_resources);
    ("search_all_iam_policies", search_all_iam_policies) ].

(** The body the nine properties share, with what differs between them as
    arguments. *)
Definition stub_property (name path : string) (ser de : Codec) : P Obj :=
  has ← stubs_contains name;
  (if negb has then
     ch ← grpc_channel;
     stub ← lift (unary_unary ch path ser de);
     stubs_setitem name stub
   else mret tt);;
  stubs_getitem name.

(** The property of a remote method. *)
Definition method_property (m : Method) : P Obj :=
  match m with
  | ExportAssets => export_assets
  | BatchGetAssetsHistory => batch_get_assets_history
  | CreateFeed => create_feed
  | GetFeed => get_feed
  | ListFeeds => list_feeds
  | UpdateFeed => update_feed
  | DeleteFeed => delete_feed
  | SearchAllResources => search_all_resources
  | SearchAllIamPolicies => search_all_iam_policies
  end.

(** ** Runs of an instance *)

(** What a caller can do with an instance: read one of its properties. *)
Inductive Op :=
| Get_grpc_channel
| Get_operations_client
| Get_rpc (m : Method).

Definition access (op : Op) : P Obj :=
  match op with
  | Get_grpc_channel => grpc_channel
  | Get_operations_client => operations_client
  | Get_rpc m => method_property m
  end.

(** A sequence of accesses; an access that raises leaves the instance as it
    was at the point of the exception, and the caller goes on. *)
Fixpoint run (ops : list Op) (st : St) : St :=
  match ops with
  | [] => st
  | op :: ops' => run ops' (snd (access op st))
  end.

(** The states of an instance built by the constructor on the trace [tr0]. *)
Inductive reachable (tr0 : Trace) : St -> Prop :=
| reachable_init host credentials credentials_file scopes channel
    api_mtls_endpoint client_cert_source quota_project_id inst tr :
    __init__ host credentials credentials_file scopes channel api_mtls_endpoint
      client_cert_source quota_project_id tr0 = (Ok inst, tr) ->
    reachable tr0 {| self := inst; world := tr |}
| reachable_access st op :
    reachable tr0 st ->
    reachable tr0 (snd (access op st)).

(** ** The constructor on a mutual-TLS endpoint *)

(** The host of the mutual-TLS channel for an endpoint. *)
Definition mtls_host (endpoint : string) : string :=
  if str_in ":" endpoint then endpoint else endpoint +:+ ":443".

(** The calls that produce the SSL credentials [ssl]: the callback and
    [grpc.ssl_channel_credentials] on what it returns when a callback is
    supplied, the application-default SSL credentials otherwise. *)
Definition ssl_events (client_cert_source : option Obj) (ssl : Obj) (evs : Trace) : Prop :=
  match client_cert_source with
  | Some cb =>
    exists cert key,
      evs = [(Call_client_cert_source cb, Ok (RPair cert key));
             (Call_ssl_channel_credentials cert key, Ok (RObj ssl))]
  | None => evs = [(Call_SslCredentials, Ok (RObj ssl))]
  end.

(** The host a call to the channel helper or to the base constructor is
    made with. *)
Definition uses_host (h : string) (ev : Event) : Prop :=
  match fst ev with
  | Call_create_channel h' _ _ _ _ _ => h' = h
  | Call_base_init h' _ _ _ _ => h' = h
  | _ => True
  end.

(** The constructor on [api_mtls_endpoint = endpoint] without a channel:
    whatever the outcome, every channel it opens and the base constructor it
    runs get the host of the endpoint; and when it returns, it has obtained
    the SSL credentials, opened the channel with them on that host, run the
    base constructor on that host, and holds the channel. *)
Definition mtls_channel_claim (endpoint : string) : Prop :=
  forall host credentials credentials_file scopes client_cert_source
         quota_project_id tr r tr',
    __init__ host credentials credentials_file scopes None (Some endpoint)
      client_cert_source quota_project_id tr = (r, tr') ->
    (exists evs, tr' = tr ++ evs /\ Forall (uses_host (mtls_host endpoint)) evs) /\
    forall inst, r = Ok inst ->
      exists ssl ch evs,
        ssl_events client_cert_source ssl evs /\
        tr' = tr ++ evs ++
              [(Call_create_channel (mtls_host endpoint) credentials credentials_file
                  (seq_or scopes AUTH_SCOPES) quota_project_id
                  [("ssl_credentials", VObj ssl)],
                Ok (RObj ch));
               (Call_base_init (mtls_host endpoint) credentials credentials_file
                  (seq_or scopes AUTH_SCOPES) quota_project_id,
                Ok (RAttrs (_host inst) (_credentials inst)))] /\
        _grpc_channel inst = Some ch.

(** The instance the constructor returns, and the call to the base
    constructor as it appears in the trace. *)
Definition new_instance (chan : option Obj) (hc : string * PyVal) : Instance :=
  {| _grpc_channel := chan;
     _stubs := ∅;
     _host := fst hc;
     _credentials := snd hc;
     dict_operations_client := None |}.

Definition base_call (host : string) (credentials : PyVal)
    (credentials_file : option string) (scopes : option (list string))
    (quota_project_id : option string) (tr : Trace) : Event :=
  (Call_base_init host credentials credentials_file (seq_or scopes AUTH_SCOPES)
     quota_project_id,
   outcome_map (fun hc => RAttrs (fst hc) (snd hc))
     (rt_base_init rt tr host credentials credentials_file
        (seq_or scopes AUTH_SCOPES) quota_project_id)).

(** An operation on the trace surfaces the errors of the runtime. *)
Definition propagates {A} (m : W A) : Prop :=
  forall tr, exists evs, snd (m tr) = tr ++ evs /\ surfaced (fst (m tr)) evs.

(** ** The transitions of an access

    The cases of an access, one constructor per path through the code;
    [access_step] below proves that every access takes one of them. *)

(** The helper call [grpc_channel] makes when the instance has no channel,
    and what the runtime answers. *)
Definition lazy_call (i : Instance) : Call :=
  Call_create_channel (_host i) (_credentials i) None (Some AUTH_SCOPES) None [].

Definition lazy_reply (st : St) : outcome Obj :=
  rt_create_channel rt (world st) (_host (self st)) (_credentials (self st))
    None (Some AUTH_SCOPES) None [].

Definition stub_call (m : Method) (ch : Obj) : Call :=
  Call_unary_unary ch (rpc_path m) (request_serializer m) (response_deserializer m).

Definition stub_reply (m : Method) (ch : Obj) (st : St) : outcome Obj :=
  rt_unary_unary rt (world st) ch (rpc_path m) (request_serializer m)
    (response_deserializer m).

Definition logged (c : Call) (r : outcome Obj) (self' : Instance) (st : St) : St :=
  {| self := self'; world := world st ++ [(c, outcome_map RObj r)] |}.

Inductive channel_step : St -> outcome Obj -> St -> Prop :=
| channel_cached st ch :
    _grpc_channel (self st) = Some ch ->
    channel_step st (Ok ch) st
| channel_opened st ch :
    _grpc_channel (self st) = None ->
    lazy_reply st = Ok ch ->
    channel_step st (Ok ch)
      (logged (lazy_call (self st)) (Ok ch) (set_grpc_channel ch (self st)) st)
| channel_refused st e :
    _grpc_channel (self st) = None ->
    lazy_reply st = Raise e ->
    channel_step st (Raise e) (logged (lazy_call (self st)) (Raise e) (self st) st).

Inductive step : Op -> St -> outcome Obj -> St -> Prop :=
| step_channel st r st' :
    channel_step st r st' ->
    step Get_grpc_channel st r st'
| step_client_cached st c :
    dict_operations_client (self st) = Some c ->
    step Get_operations_client st (Ok c) st
| step_client_no_channel st e st1 :
    dict_operations_client (self st) = None ->
    channel_step st (Raise e) st1 ->
    step Get_operations_client st (Raise e) st1
| step_client_made st ch st1 c :
    dict_operations_client (self st) = None ->
    channel_step st (Ok ch) st1 ->
    rt_OperationsAsyncClient rt (world st1) ch = Ok c ->
    step Get_operations_client st (Ok c)
      (logged (Call_OperationsAsyncClient ch) (Ok c)
         (set_operations_client c (self st1)) st1)
| step_client_failed st ch st1 e :
    dict_operations_client (self st) = None ->
    channel_step st (Ok ch) st1 ->
    rt_OperationsAsyncClient rt (world st1) ch = Raise e ->
    step Get_operations_client st (Raise e)
      (logged (Call_OperationsAsyncClient ch) (Raise e) (self st1) st1)
| step_stub_cached m st stub :
    _stubs (self st) !! method_name m = Some stub ->
    step (Get_rpc m) st (Ok stub) st
| step_stub_no_channel m st e st1 :
    _stubs (self st) !! method_name m = None ->
    channel_step st (Raise e) st1 ->
    step (Get_rpc m) st (Raise e) st1
| step_stub_made m st ch st1 stub :
    _stubs (self st) !! method_name m = None ->
    channel_step st (Ok ch) st1 ->
    stub_reply m ch st1 = Ok stub ->
    step (Get_rpc m) st (Ok stub)
      (logged (stub_call m ch) (Ok stub) (set_stub (method_name m) stub (self st1)) st1)
| step_stub_failed m st ch st1 e :
    _stubs (self st) !! method_name m = None ->
    channel_step st (Ok ch) st1 ->
    stub_reply m ch st1 = Raise e ->
    step (Get_rpc m) st (Raise e) (logged (stub_call m ch) (Raise e) (self st1) st1).

(** What is not in the cache an access reads. *)
Definition cache_miss (op : Op) (st : St) : Prop :=
  match op with
  | Get_grpc_channel => _grpc_channel (self st) = None
  | Get_operations_client => dict_operations_client (self st) = None
  | Get_rpc m => _stubs (self st) !! method_name m = None
  end.

(** The calls a property of the instance [i] may make: the channel helper
    with the host and the credentials of [i] and nothing else, [unary_unary]
    and [OperationsAsyncClient] on the channel of [i]. *)
Definition property_call (i : Instance) (ev : Event) : Prop :=
  match fst ev with
  | Call_create_channel _ _ _ _ _ _ => fst ev = lazy_call i
  | Call_unary_unary c _ _ _ => _grpc_channel i = Some c
  | Call_OperationsAsyncClient c => _grpc_channel i = Some c
  | _ => False
  end.

End Transport.

Arguments reachable_init {AUTH_SCOPES rt tr0}.
Arguments reachable_access {AUTH_SCOPES rt tr0}.

(** ** Two concrete runtimes *)

Definition cert_pem : bytes := [Byte.x63; Byte.x65; Byte.x72; Byte.x74].
Definition key_pem : bytes := [Byte.x6b; Byte.x65; Byte.x79].

(** Every call returns; every object made is new (its identity is the
    number of calls made before it); the base constructor stores the host and
    the credentials it is given. *)
Definition online : Runtime := {|
  rt_create_channel := fun tr _ _ _ _ _ _ => Ok (length tr);
  rt_unary_unary := fun tr _ _ _ _ => Ok (length tr);
  rt_OperationsAsyncClient := fun tr _ => Ok (length tr);
  rt_client_cert_source := fun _ _ => Ok (cert_pem, key_pem);
  rt_ssl_channel_credentials := fun tr _ _ => Ok (length tr);
  rt_SslCredentials := fun tr => Ok (length tr);
  rt_base_init := fun _ host credentials _ _ _ => Ok (host, credentials)
|}.

(** As [online], but no channel can be opened. *)
Definition offline : Runtime := {|
  rt_create_channel := fun _ _ _ _ _ _ _ => Raise (Raised "RpcError" "unavailable");
  rt_unary_unary := rt_unary_unary online;
  rt_OperationsAsyncClient := rt_OperationsAsyncClient online;
  rt_client_cert_source := rt_client_cert_source online;
  rt_ssl_channel_credentials := rt_ssl_channel_credentials online;
  rt_SslCredentials := rt_SslCredentials online;
  rt_base_init := rt_base_init online
|}.

(** As [online], but the channel makes no stub. *)
Definition stubless : Runtime := {|
  rt_create_channel := rt_create_channel online;
  rt_unary_unary := fun _ _ _ _ _ => Raise (Raised "UsageError" "channel closed");
  rt_OperationsAsyncClient := rt_OperationsAsyncClient online;
  rt_client_cert_source := rt_client_cert_source online;
  rt_ssl_channel_credentials := rt_ssl_channel_credentials online;
  rt_SslCredentials := rt_SslCredentials online;
  rt_base_init := rt_base_init online
|}.

(** As [online], but the base constructor rejects its arguments. *)
Definition strict : Runtime := {|
  rt_create_channel := rt_create_channel online;
  rt_unary_unary := rt_unary_unary online;
  rt_OperationsAsyncClient := rt_OperationsAsyncClient online;
  rt_client_cert_source := rt_client_cert_source online;
  rt_ssl_channel_credentials := rt_ssl_channel_credentials online;
  rt_SslCredentials := rt_SslCredentials online;
  rt_base_init := fun _ _ _ _ _ _ =>
    Raise (Raised "DuplicateCredentialArgs" "mutually exclusive")
|}.

Definition cloud_platform : list string :=
  ["https://www.googleapis.com/auth/cloud-platform"].

Definition DEFAULT_HOST : string := "cloudasset.googleapis.com".

(** The instance the constructor returns when it is given nothing but
    defaults, on the [online] runtime and an empty trace. *)
Definition blank : St :=
  {| self := {| _grpc_channel := None;
                _stubs := ∅;
                _host := DEFAULT_HOST;
                _credentials := VNone;
                dict_operations_client := None |};
     world := [(Call_base_init DEFAULT_HOST VNone None (Some cloud_platform) None,
                Ok (RAttrs DEFAULT_HOST VNone))] |}.

(** The properties that build a stub: those whose first access on a new
    instance calls [unary_unary]. *)
Definition builds_stub (p : P Obj) : bool :=
  existsb is_unary_unary (world (snd (p blank))).

Definition rpc_properties : list string :=
  map fst (filter (fun np => builds_stub (snd np) = true)
             (properties cloud_platform online)).

(** * Properties *)

Section Facts.

Variable AUTH_SCOPES : list string.
Variable rt : Runtime.

(** ** Every access is a transition *)

Lemma is_Some_bool {A} (o : option A) :
  bool_decide (is_Some o) = match o with Some _ => true | None => false end.
Proof. by destruct o. Qed.

Lemma grpc_channel_step st :
  channel_step AUTH_SCOPES rt st
    (fst (grpc_channel AUTH_SCOPES rt st)) (snd (grpc_channel AUTH_SCOPES rt st)).
Proof.
  unfold grpc_channel, hasattr_grpc_channel, getattr_grpc_channel,
    getattr_host, getattr_credentials, setattr_grpc_channel, lift, create_channel,
    grpc_helpers_async_create_channel, perform.
  cbv [mbind M_bind mret M_ret]. rewrite is_Some_bool.
  destruct (_grpc_channel (self st)) as [ch|] eqn:Hch; simpl.
  - rewrite Hch. by constructor.
  - destruct (rt_create_channel rt _ _ _ _ _ _ _) as [ch|e] eqn:Hr; simpl.
    + by apply channel_opened.
    + by apply channel_refused.
Qed.

Lemma operations_client_step st :
  step AUTH_SCOPES rt Get_operations_client st
    (fst (operations_client AUTH_SCOPES rt st))
    (snd (operations_client AUTH_SCOPES rt st)).
Proof.
  pose proof (grpc_channel_step st) as Hc.
  unfold operations_client, dict_contains_operations_client,
    dict_setitem_operations_client, dict_getitem_operations_client.
  cbv [mbind M_bind mret M_ret]. rewrite is_Some_bool.
  destruct (dict_operations_client (self st)) as [c|] eqn:Hd; simpl.
  - rewrite Hd. by constructor.
  - destruct (grpc_channel AUTH_SCOPES rt st) as [[ch|e] st1]; simpl in *.
    + unfold lift, OperationsAsyncClient, perform.
      destruct (rt_OperationsAsyncClient rt (world st1) ch) as [c|e] eqn:Hr; simpl.
      * by eapply step_client_made.
      * by eapply step_client_failed.
    + by apply step_client_no_channel.
Qed.

Lemma method_property_unfold m :
  method_property AUTH_SCOPES rt m =
  stub_property AUTH_SCOPES rt (method_name m) (rpc_path m)
    (request_serializer m) (response_deserializer m).
Proof. by destruct m. Qed.

Lemma method_property_step m st :
  step AUTH_SCOPES rt (Get_rpc m) st
    (fst (method_property AUTH_SCOPES rt m st))
    (snd (method_property AUTH_SCOPES rt m st)).
Proof.
  rewrite method_property_unfold.
  pose proof (grpc_channel_step st) as Hc.
  unfold stub_property, stubs_contains, stubs_setitem, stubs_getitem.
  cbv [mbind M_bind mret M_ret]. rewrite is_Some_bool.
  destruct (_stubs (self st) !! method_name m) as [s|] eqn:Hs; simpl.
  - rewrite Hs. by constructor.
  - destruct (grpc_channel AUTH_SCOPES rt st) as [[ch|e] st1]; simpl in *.
    + unfold lift, unary_unary, perform.
      destruct (rt_unary_unary rt (world st1) ch _ _ _) as [s|e] eqn:Hr; simpl.
      * rewrite lookup_insert_eq. by eapply step_stub_made.
      * by eapply step_stub_failed.
    + by apply step_stub_no_channel.
Qed.

Lemma access_step op st :
  step AUTH_SCOPES rt op st
    (fst (access AUTH_SCOPES rt op st)) (snd (access AUTH_SCOPES rt op st)).
Proof.
  destruct op; simpl.
  - constructor. apply grpc_channel_step.
  - apply operations_client_step.
  - apply method_property_step.
Qed.

(** ** What an access keeps *)

Lemma channels_created_app (a b : Trace) :
  channels_created (a ++ b) = channels_created a + channels_created b.
Proof. unfold channels_created. by rewrite List.filter_app, length_app. Qed.

Lemma extends_refl st : extends st st.
Proof. split; auto. exists []. by rewrite app_nil_r. Qed.

Lemma extends_trans st1 st2 st3 : extends st1 st2 -> extends st2 st3 -> extends st1 st3.
Proof.
  intros H12 H23. split.
  - by rewrite (ext_host _ _ H23), (ext_host _ _ H12).
  - by rewrite (ext_credentials _ _ H23), (ext_credentials _ _ H12).
  - intros ch Hch. destruct (ext_channel _ _ H12 ch Hch) as [H2 E2].
    destruct (ext_channel _ _ H23 ch H2) as [H3 E3]. split; [done | congruence].
  - intros name stub Hs. by apply (ext_stubs _ _ H23), (ext_stubs _ _ H12).
  - intros c Hc. by apply (ext_client _ _ H23), (ext_client _ _ H12).
  - destruct (ext_world _ _ H12) as [e1 E1], (ext_world _ _ H23) as [e2 E2].
    exists (e1 ++ e2). by rewrite E2, E1, app_assoc.
Qed.

Lemma channel_step_stubs st r st' :
  channel_step AUTH_SCOPES rt st r st' ->
  _stubs (self st') = _stubs (self st) /\
  dict_operations_client (self st') = dict_operations_client (self st).
Proof. by destruct 1. Qed.

Lemma channel_step_extends st r st' :
  channel_step AUTH_SCOPES rt st r st' -> extends st st'.
Proof.
  destruct 1 as [st ch Hch | st ch Hch Hr | st e Hch Hr].
  - apply extends_refl.
  - split; simpl; try done; [congruence | by eexists].
  - split; simpl; try done; [congruence | by eexists].
Qed.

(** Logging a call that creates no channel, on an instance that keeps what
    it holds. *)
Lemma logged_extends c r i st :
  (forall h cr cf sc q kw, c <> Call_create_channel h cr cf sc q kw) ->
  _host i = _host (self st) ->
  _credentials i = _credentials (self st) ->
  _grpc_channel i = _grpc_channel (self st) ->
  (forall name stub, _stubs (self st) !! name = Some stub -> _stubs i !! name = Some stub) ->
  (forall cl, dict_operations_client (self st) = Some cl ->
              dict_operations_client i = Some cl) ->
  extends st (logged c r i st).
Proof.
  intros Hc Hh Hcr Hch Hs Hd. split; simpl; try done.
  - intros ch E. split; [congruence |].
    rewrite channels_created_app.
    assert (channels_created [(c, outcome_map RObj r)] = 0) as ->; [| lia].
    destruct c; try done. by destruct (Hc host credentials credentials_file scopes
      quota_project_id kwargs).
  - by eexists.
Qed.

Lemma step_extends op st r st' : step AUTH_SCOPES rt op st r st' -> extends st st'.
Proof.
  destruct 1 as [st r st' Hc | st c Hd | st e st1 Hd Hc | st ch st1 c Hd Hc Hr
                | st ch st1 e Hd Hc Hr | m st stub Hs | m st e st1 Hs Hc
                | m st ch st1 stub Hs Hc Hr | m st ch st1 e Hs Hc Hr];
    try apply extends_refl;
    try (by eapply channel_step_extends);
    (eapply extends_trans; [by eapply channel_step_extends |]);
    destruct (channel_step_stubs _ _ _ Hc) as [Es Ed];
    apply logged_extends; try done; simpl.
  - intros cl Hcl. congruence.
  - intros name stub' Hn. rewrite lookup_insert_ne; [done | congruence].
Qed.

Lemma run_extends ops st : extends st (run AUTH_SCOPES rt ops st).
Proof.
  revert st. induction ops as [|op ops IH]; intros st; simpl.
  - apply extends_refl.
  - eapply extends_trans; [| apply IH]. eapply step_extends, access_step.
Qed.

(** ** Cache hits *)

Lemma pair_eta {A B} (p : A * B) a b : fst p = a -> snd p = b -> p = (a, b).
Proof. destruct p; simpl; congruence. Qed.

Lemma grpc_channel_hit st ch :
  _grpc_channel (self st) = Some ch ->
  grpc_channel AUTH_SCOPES rt st = (Ok ch, st).
Proof.
  intros H. pose proof (grpc_channel_step st) as Hs.
  inversion Hs; apply pair_eta; congruence.
Qed.

Lemma operations_client_hit st c :
  dict_operations_client (self st) = Some c ->
  operations_client AUTH_SCOPES rt st = (Ok c, st).
Proof.
  intros H. pose proof (operations_client_step st) as Hs.
  inversion Hs; apply pair_eta; congruence.
Qed.


(** ** The transitions are the code *)

Ltac same_scrutinee :=
  repeat match goal with
         | H1 : ?x = _, H2 : ?x = _ |- _ => rewrite H1 in H2; simplify_eq
         end.

Lemma channel_step_det st r1 s1 r2 s2 :
  channel_step AUTH_SCOPES rt st r1 s1 ->
  channel_step AUTH_SCOPES rt st r2 s2 ->
  r1 = r2 /\ s1 = s2.
Proof. destruct 1; inversion 1; subst; same_scrutinee; done. Qed.

Lemma step_det op st r1 s1 r2 s2 :
  step AUTH_SCOPES rt op st r1 s1 ->
  step AUTH_SCOPES rt op st r2 s2 ->
  r1 = r2 /\ s1 = s2.
Proof.
  destruct 1; inversion 1; subst; same_scrutinee;
    try match goal with
        | H1 : channel_step _ _ ?st _ _, H2 : channel_step _ _ ?st _ _ |- _ =>
          destruct (channel_step_det _ _ _ _ _ H1 H2); simplify_eq
        end;
    same_scrutinee; done.
Qed.

Lemma channel_step_complete st r st' :
  channel_step AUTH_SCOPES rt st r st' -> grpc_channel AUTH_SCOPES rt st = (r, st').
Proof.
  intros H. destruct (channel_step_det _ _ _ _ _ H (grpc_channel_step st)).
  by apply pair_eta.
Qed.

Lemma step_complete op st r st' :
  step AUTH_SCOPES rt op st r st' -> access AUTH_SCOPES rt op st = (r, st').
Proof.
  intros H. destruct (step_det _ _ _ _ _ _ H (access_step op st)).
  by apply pair_eta.
Qed.

(** ** The stub table *)


(** ** The channel *)

Lemma channel_step_holds st ch st1 :
  channel_step AUTH_SCOPES rt st (Ok ch) st1 -> _grpc_channel (self st1) = Some ch.
Proof. by inversion 1. Qed.

(** ** The operations client *)

(** C7: the operations client is made from the external library over the
    cached channel.  With an entry in the instance dictionary the property
    returns it and changes nothing.  Without one, an access that returns has
    read [grpc_channel], called [OperationsAsyncClient] on that channel, once,
    and stored the client; after that, whatever else is read from the
    instance, the property returns that client and changes nothing. *)
Theorem operations_client_cached st :
  (forall c, dict_operations_client (self st) = Some c ->
     operations_client AUTH_SCOPES rt st = (Ok c, st)) /\
  (forall c st1,
     dict_operations_client (self st) = None ->
     operations_client AUTH_SCOPES rt st = (Ok c, st1) ->
     exists ch st0,
       grpc_channel AUTH_SCOPES rt st = (Ok ch, st0) /\
       rt_OperationsAsyncClient rt (world st0) ch = Ok c /\
       st1 = logged (Call_OperationsAsyncClient ch) (Ok c)
               (set_operations_client c (self st0)) st0) /\
  (forall c st1,
     operations_client AUTH_SCOPES rt st = (Ok c, st1) ->
     dict_operations_client (self st1) = Some c /\
     forall ops,
       let st2 := run AUTH_SCOPES rt ops st1 in
       operations_client AUTH_SCOPES rt st2 = (Ok c, st2)).
Proof.
  split; [| split].
  - intros c. apply operations_client_hit.
  - intros c st1 Hnone Hacc. pose proof (operations_client_step st) as Hs.
    rewrite Hacc in Hs. simpl in Hs.
    inversion Hs as [ | ? ? Hhit | | ? ch st0 ? _ Hc Hr | | | | | ]; subst.
    { congruence. }
    exists ch, st0. split; [by apply channel_step_complete | done].
  - intros c st1 Hacc. pose proof (operations_client_step st) as Hs.
    rewrite Hacc in Hs. simpl in Hs.
    assert (dict_operations_client (self st1) = Some c) as H1.
    { inversion Hs; subst; done. }
    split; [done |]. intros ops st2. apply operations_client_hit.
    apply (ext_client _ _ (run_extends ops _)), H1.
Qed.

(** ** The constructor *)

Lemma seq_or_idem scopes :
  seq_or (seq_or scopes AUTH_SCOPES) AUTH_SCOPES = seq_or scopes AUTH_SCOPES.
Proof.
  unfold seq_or. destruct (seq_truthy scopes) eqn:E; [by rewrite E |].
  by destruct AUTH_SCOPES.
Qed.

Ltac run_init :=
  unfold __init__, create_channel, grpc_helpers_async_create_channel, base_init,
    call_client_cert_source, ssl_channel_credentials, SslCredentials_ssl_credentials,
    perform;
  cbv [mbind M_bind mret M_ret]; simpl.

Lemma init_given host credentials cf scopes ch mtls ccs qp tr :
  __init__ AUTH_SCOPES rt host credentials cf scopes (Some ch) mtls ccs qp tr =
  (outcome_map (new_instance (Some ch))
     (rt_base_init rt tr host (VBool false) cf (seq_or scopes AUTH_SCOPES) qp),
   tr ++ [base_call AUTH_SCOPES rt host (VBool false) cf scopes qp tr]).
Proof. run_init. unfold base_call. by destruct (rt_base_init _ _ _ _ _ _ _) as [[h c]|e]. Qed.

Lemma init_lazy host credentials cf scopes mtls ccs qp tr :
  mtls = None \/ mtls = Some "" ->
  __init__ AUTH_SCOPES rt host credentials cf scopes None mtls ccs qp tr =
  (outcome_map (new_instance None)
     (rt_base_init rt tr host credentials cf (seq_or scopes AUTH_SCOPES) qp),
   tr ++ [base_call AUTH_SCOPES rt host credentials cf scopes qp tr]).
Proof.
  intros [-> | ->]; run_init; unfold base_call;
    by destruct (rt_base_init _ _ _ _ _ _ _) as [[h c]|e].
Qed.

Local Arguments str_in : simpl never.
Local Arguments String.append : simpl never.

Lemma init_mtls a s : mtls_channel_claim AUTH_SCOPES rt (String a s).
Proof.
  intros host credentials cf scopes ccs qp tr r tr'. run_init.
  fold (mtls_host (String a s)). rewrite seq_or_idem.
  destruct ccs as [cb|]; simpl; repeat case_match; intros; simplify_eq.
  all: rewrite <- ?app_assoc; simpl.
  all: split; [eexists; split; [reflexivity | repeat constructor] | intros; simplify_eq].
  all: repeat match goal with H : ?x = Ok _ |- context [?x] => rewrite H end; simpl.
  all: do 3 eexists; split; [try (do 2 eexists); reflexivity | by split].
Qed.

Lemma ssl_events_no_channel ccs ssl evs :
  ssl_events ccs ssl evs -> channels_created evs = 0.
Proof. destruct ccs; simpl; [intros (cert & key & ->) | intros ->]; done. Qed.

Lemma init_ok host credentials cf scopes channel mtls ccs qp tr0 inst tr :
  __init__ AUTH_SCOPES rt host credentials cf scopes channel mtls ccs qp tr0
    = (Ok inst, tr) ->
  _stubs inst = ∅ /\ one_channel tr0 {| self := inst; world := tr |}.
Proof.
  destruct channel as [ch|]; [| destruct mtls as [[|a s]|]].
  - rewrite init_given. destruct (rt_base_init _ _ _ _ _ _ _) as [hc|e] eqn:E;
      simpl; intros; simplify_eq.
    split; [done |]. eexists. split; [done |]. by left.
  - rewrite init_lazy by auto. destruct (rt_base_init _ _ _ _ _ _ _) as [hc|e] eqn:E;
      simpl; intros; simplify_eq.
    split; [done |]. eexists. split; [done |]. by left.
  - intros H. pose proof H as H'. revert H'. run_init.
    intros H'. assert (_stubs inst = ∅) as Hs.
    { repeat case_match; simplify_eq; done. }
    split; [done |].
    destruct (init_mtls a s _ _ _ _ _ _ _ _ _ H) as [_ Hok].
    destruct (Hok inst eq_refl) as (ssl & ch & evs & Hssl & -> & Hch).
    eexists. split; [done |]. right. split; [| simpl; rewrite Hch; by eexists].
    rewrite channels_created_app, (ssl_events_no_channel _ _ _ Hssl). done.
  - rewrite init_lazy by auto. destruct (rt_base_init _ _ _ _ _ _ _) as [hc|e] eqn:E;
      simpl; intros; simplify_eq.
    split; [done |]. eexists. split; [done |]. by left.
Qed.

(** ** Invariants along a run *)

Lemma stubs_ok_extends st st' name stub :
  extends st st' -> stubs_ok st ->
  _stubs (self st) !! name = Some stub ->
  exists m ch,
    name = method_name m /\
    _grpc_channel (self st') = Some ch /\
    (Call_unary_unary ch (rpc_path m) (request_serializer m) (response_deserializer m),
     Ok (RObj stub)) ∈ world st'.
Proof.
  intros He Hok Hs. destruct (Hok name stub Hs) as (m & ch & -> & Hch & Hin).
  exists m, ch. split; [done |]. split; [by apply (ext_channel _ _ He) |].
  destruct (ext_world _ _ He) as [evs ->]. apply elem_of_app. by left.
Qed.

Lemma step_stubs_ok op st r st' :
  step AUTH_SCOPES rt op st r st' -> stubs_ok st -> stubs_ok st'.
Proof.
  intros Hstep Hok. pose proof (step_extends _ _ _ _ Hstep) as He.
  destruct Hstep as [st r st' Hc | st c Hd | st e st1 Hd Hc | st ch st1 c Hd Hc Hr
                | st ch st1 e Hd Hc Hr | m st stub Hs | m st e st1 Hs Hc
                | m st ch st1 stub Hs Hc Hr | m st ch st1 e Hs Hc Hr];
    try done;
    destruct (channel_step_stubs _ _ _ Hc) as [Es _];
    intros name stub' Hn; simpl in Hn; rewrite ?Es in Hn;
    try (by eapply stubs_ok_extends).
  destruct (decide (name = method_name m)) as [-> | Hne].
  - rewrite lookup_insert_eq in Hn. simplify_eq.
    exists m, ch. simpl. split; [done |]. split; [by eapply channel_step_holds |].
    apply elem_of_app. right. constructor.
  - rewrite lookup_insert_ne in Hn by done. by eapply stubs_ok_extends.
Qed.

Lemma one_channel_logged tr0 st c r i :
  is_channel_created (c, outcome_map RObj r) = false ->
  _grpc_channel i = _grpc_channel (self st) ->
  one_channel tr0 st -> one_channel tr0 (logged c r i st).
Proof.
  intros Hc Hi (evs & Hw & Hn). exists (evs ++ [(c, outcome_map RObj r)]).
  assert (channels_created [(c, outcome_map RObj r)] = 0) as E.
  { unfold channels_created. cbn [List.filter]. by rewrite Hc. }
  unfold logged. cbn [self world].
  split; [by rewrite Hw, app_assoc |].
  by rewrite channels_created_app, E, Nat.add_0_r, Hi.
Qed.

Lemma channel_step_one_channel tr0 st r st' :
  channel_step AUTH_SCOPES rt st r st' -> one_channel tr0 st -> one_channel tr0 st'.
Proof.
  destruct 1 as [st ch Hch | st ch Hch Hr | st e Hch Hr]; [done | | ].
  - intros (evs & Hw & [Hn | [_ [c Hc]]]); [| congruence].
    eexists. simpl. split; [by rewrite Hw, <- app_assoc |].
    right. rewrite channels_created_app, Hn. done.
  - by apply one_channel_logged.
Qed.

Lemma step_one_channel tr0 op st r st' :
  step AUTH_SCOPES rt op st r st' -> one_channel tr0 st -> one_channel tr0 st'.
Proof.
  destruct 1 as [st r st' Hc | st c Hd | st e st1 Hd Hc | st ch st1 c Hd Hc Hr
                | st ch st1 e Hd Hc Hr | m st stub Hs | m st e st1 Hs Hc
                | m st ch st1 stub Hs Hc Hr | m st ch st1 e Hs Hc Hr];
    try done; intros H1;
    apply (channel_step_one_channel _ _ _ _ Hc) in H1; try done;
    by apply one_channel_logged.
Qed.

Lemma reachable_invariants tr0 st :
  reachable AUTH_SCOPES rt tr0 st -> stubs_ok st /\ one_channel tr0 st.
Proof.
  induction 1 as [host credentials cf scopes channel mtls ccs qp inst tr Hinit
                 | st op Hreach [IHs IHc]].
  - destruct (init_ok _ _ _ _ _ _ _ _ _ _ _ Hinit) as [Hs Hc].
    split; [| done]. intros name stub. simpl. rewrite Hs. by rewrite lookup_empty.
  - pose proof (access_step op st) as Hstep. split.
    + by eapply step_stubs_ok.
    + by eapply step_one_channel.
Qed.

Lemma reachable_run tr0 ops st :
  reachable AUTH_SCOPES rt tr0 st -> reachable AUTH_SCOPES rt tr0 (run AUTH_SCOPES rt ops st).
Proof.
  revert st. induction ops as [|op ops IH]; intros st H; simpl; [done |].
  by apply IH, reachable_access.
Qed.


(** ** Errors *)

Lemma surfaced_ok_app {A B} (a : A) (r : outcome B) evs1 evs2 :
  surfaced (Ok a) evs1 -> surfaced r evs2 -> surfaced r (evs1 ++ evs2).
Proof.
  destruct r as [b|e]; simpl.
  - apply Forall_app_2.
  - intros H1 (evs' & c & -> & H2). exists (evs1 ++ evs'), c.
    split; [by rewrite app_assoc | by apply Forall_app_2].
Qed.

Lemma surfaced_call {A} (c : Call) (r : outcome A) (inj : A -> Reply) :
  surfaced r [(c, outcome_map inj r)].
Proof.
  destruct r as [a|e]; simpl.
  - by repeat constructor.
  - exists [], c. by split.
Qed.

Lemma propagates_ret {A} (a : A) : propagates (mret a).
Proof. intros tr. exists []. split; [by rewrite app_nil_r | constructor]. Qed.

Lemma propagates_perform {A} c (inj : A -> Reply) oracle : propagates (perform c inj oracle).
Proof. intros tr. eexists. split; [done | apply surfaced_call]. Qed.

Lemma propagates_bind {A B} (m : W A) (k : A -> W B) :
  propagates m -> (forall a, propagates (k a)) -> propagates (m ≫= k).
Proof.
  intros Hm Hk tr. destruct (Hm tr) as (e1 & E1 & S1). unfold mbind, M_bind.
  destruct (m tr) as [[a|e] tr1]; simpl in *.
  - destruct (Hk a tr1) as (e2 & E2 & S2). exists (e1 ++ e2).
    split; [by rewrite E2, E1, app_assoc | by apply (surfaced_ok_app a)].
  - by exists e1.
Qed.

Lemma create_channel_propagates host credentials cf scopes qp kwargs :
  propagates (create_channel AUTH_SCOPES rt host credentials cf scopes qp kwargs).
Proof. apply propagates_perform. Qed.

Lemma init_propagates host credentials cf scopes channel mtls ccs qp :
  propagates (__init__ AUTH_SCOPES rt host credentials cf scopes channel mtls ccs qp).
Proof.
  unfold __init__. apply propagates_bind.
  - destruct channel as [ch|]; [apply propagates_ret |].
    destruct mtls as [[|a s]|]; try apply propagates_ret.
    apply propagates_bind.
    + destruct ccs as [cb|]; [| apply propagates_perform].
      apply propagates_bind; [apply propagates_perform |].
      intros [cert key]. apply propagates_perform.
    + intros ssl. apply propagates_bind; [apply create_channel_propagates |].
      intros ch. apply propagates_ret.
  - intros [[h c] chan]. apply propagates_bind; [apply propagates_perform |].
    intros [sh sc]. apply propagates_ret.
Qed.

Lemma channel_step_surfaced st r st' :
  channel_step AUTH_SCOPES rt st r st' ->
  exists evs, world st' = world st ++ evs /\ surfaced r evs.
Proof.
  destruct 1 as [st ch Hch | st ch Hch Hr | st e Hch Hr].
  - exists []. split; [by rewrite app_nil_r | constructor].
  - eexists. split; [done | apply (surfaced_call _ (Ok ch))].
  - eexists. split; [done | apply (surfaced_call _ (Raise e))].
Qed.

Lemma logged_surfaced {A} st (a : A) st1 c r i :
  (exists evs, world st1 = world st ++ evs /\ surfaced (Ok a) evs) ->
  exists evs, world (logged c r i st1) = world st ++ evs /\ surfaced r evs.
Proof.
  intros (evs & E & S). exists (evs ++ [(c, outcome_map RObj r)]). simpl.
  split; [by rewrite E, app_assoc |]. apply (surfaced_ok_app a); [done | apply surfaced_call].
Qed.

Lemma step_surfaced op st r st' :
  step AUTH_SCOPES rt op st r st' ->
  exists evs, world st' = world st ++ evs /\ surfaced r evs.
Proof.
  destruct 1 as [st r st' Hc | st c Hd | st e st1 Hd Hc | st ch st1 c Hd Hc Hr
                | st ch st1 e Hd Hc Hr | m st stub Hs | m st e st1 Hs Hc
                | m st ch st1 stub Hs Hc Hr | m st ch st1 e Hs Hc Hr];
    try (by apply channel_step_surfaced);
    try (exists []; split; [by rewrite app_nil_r | constructor]);
    eapply logged_surfaced, channel_step_surfaced, Hc.
Qed.

(** C6: no operation catches, wraps or replaces an exception.  For the
    class method [create_channel], the constructor and every property: when
    the operation returns, every external call it made returned; when it
    raises [e], the last external call it made raised that same [e] and every
    call before it returned.  So the operation stops at the first external
    error and hands it to the caller as it is, and it raises nothing of its
    own. *)
Theorem errors_surface_unchanged :
  (forall host credentials credentials_file scopes quota_project_id kwargs,
     propagates (create_channel AUTH_SCOPES rt host credentials credentials_file
                   scopes quota_project_id kwargs)) /\
  (forall host credentials credentials_file scopes channel api_mtls_endpoint
          client_cert_source quota_project_id,
     propagates (__init__ AUTH_SCOPES rt host credentials credentials_file scopes
                   channel api_mtls_endpoint client_cert_source quota_project_id)) /\
  (forall op st,
     exists evs,
       world (snd (access AUTH_SCOPES rt op st)) = world st ++ evs /\
       surfaced (fst (access AUTH_SCOPES rt op st)) evs).
Proof.
  split; [| split].
  - intros. apply create_channel_propagates.
  - intros. apply init_propagates.
  - intros op st. eapply step_surfaced, access_step.
Qed.

(** ** The stubs of the remote methods *)


Lemma reachable_stub_names tr0 st name :
  reachable AUTH_SCOPES rt tr0 st ->
  is_Some (_stubs (self st) !! name) ->
  exists m, name = method_name m.
Proof.
  intros Hreach [stub Hs]. destruct (reachable_invariants _ _ Hreach) as [Hok _].
  destruct (Hok _ _ Hs) as (m & ch & -> & _). by exists m.
Qed.

(** C3: the channel is created at most once.  An instance that holds a
    channel gets it back from [grpc_channel], and nothing changes: no call is
    made.  When [grpc_channel] returns a channel, the instance holds it from
    then on: whatever else is read from the instance afterwards,
    [grpc_channel] returns the same channel, changes nothing, and no further
    channel has been created.  Over the whole life of an instance, from its
    constructor on, at most one channel is created. *)
Theorem grpc_channel_idempotent st :
  (forall ch, _grpc_channel (self st) = Some ch ->
     grpc_channel AUTH_SCOPES rt st = (Ok ch, st)) /\
  (forall ch st1,
     grpc_channel AUTH_SCOPES rt st = (Ok ch, st1) ->
     _grpc_channel (self st1) = Some ch /\
     forall ops,
       let st2 := run AUTH_SCOPES rt ops st1 in
       grpc_channel AUTH_SCOPES rt st2 = (Ok ch, st2) /\
       channels_created (world st2) = channels_created (world st1)) /\
  (forall tr0, reachable AUTH_SCOPES rt tr0 st -> one_channel tr0 st).
Proof.
  split; [| split].
  - intros ch. apply grpc_channel_hit.
  - intros ch st1 Hacc. pose proof (grpc_channel_step st) as Hs.
    rewrite Hacc in Hs. simpl in Hs. apply channel_step_holds in Hs.
    split; [done |]. intros ops st2.
    destruct (ext_channel _ _ (run_extends ops st1) ch Hs) as [H2 E2].
    split; [by apply grpc_channel_hit | done].
  - intros tr0 Hreach. by destruct (reachable_invariants _ _ Hreach).
Qed.

(** ** Channel creation *)

(** C5: [create_channel] is the helper [grpc_helpers_async.create_channel]
    on the same host, credentials, credentials file, quota project and
    keyword arguments, and on the same scopes unless they are [None] or empty,
    in which case on [AUTH_SCOPES]: it returns what that one call returns (or
    raises what it raises) and makes no other call. *)
Theorem create_channel_delegates host credentials credentials_file scopes
    quota_project_id kwargs tr :
  let scopes' := match scopes with
                 | None | Some [] => Some AUTH_SCOPES
                 | Some (_ :: _) => scopes
                 end in
  let reply := rt_create_channel rt tr host credentials credentials_file scopes'
                 quota_project_id kwargs in
  create_channel AUTH_SCOPES rt host credentials credentials_file scopes
    quota_project_id kwargs tr
  = grpc_helpers_async_create_channel rt host credentials credentials_file scopes'
      quota_project_id kwargs tr /\
  create_channel AUTH_SCOPES rt host credentials credentials_file scopes
    quota_project_id kwargs tr
  = (reply,
     tr ++ [(Call_create_channel host credentials credentials_file scopes'
               quota_project_id kwargs,
             outcome_map RObj reply)]).
Proof. by destruct scopes as [[|sc scs]|]. Qed.

(** ** The constructor, case by case *)




(** * Further properties of the class *)

(** ** Accesses that fail *)

Lemma channel_step_calls st r st' :
  channel_step AUTH_SCOPES rt st r st' ->
  exists evs,
    world st' = world st ++ evs /\
    length evs <= 1 /\
    (is_Some (_grpc_channel (self st)) -> evs = []) /\
    (_grpc_channel (self st) = None -> length evs = 1).
Proof.
  destruct 1 as [st ch Hch | st ch Hch Hr | st e Hch Hr].
  - exists []. rewrite app_nil_r. repeat split; auto. congruence.
  - eexists. split; [done |]. repeat split; auto. intros [c Hc]. congruence.
  - eexists. split; [done |]. repeat split; auto. intros [c Hc]. congruence.
Qed.

Lemma channel_step_raise st e st' :
  channel_step AUTH_SCOPES rt st (Raise e) st' ->
  _grpc_channel (self st) = None /\
  lazy_reply AUTH_SCOPES rt st = Raise e /\
  st' = logged (lazy_call AUTH_SCOPES (self st)) (Raise e) (self st) st.
Proof. by inversion 1. Qed.

Lemma step_miss_calls op st r st' :
  step AUTH_SCOPES rt op st r st' -> cache_miss op st ->
  length (world st) < length (world st').
Proof.
  destruct 1 as [st r st' Hc | st c Hd | st e st1 Hd Hc | st ch st1 c Hd Hc Hr
                | st ch st1 e Hd Hc Hr | m st stub Hs | m st e st1 Hs Hc
                | m st ch st1 stub Hs Hc Hr | m st ch st1 e Hs Hc Hr];
    simpl; intros Hmiss; try congruence;
    destruct (channel_step_calls _ _ _ Hc) as (evs & E & Hle & Hsome & Hnone);
    try (rewrite length_app, E, length_app; simpl; lia).
  - rewrite E, length_app, (Hnone Hmiss). lia.
  - destruct (channel_step_raise _ _ _ Hc) as (Hch & _ & _).
    rewrite E, length_app, (Hnone Hch). lia.
  - destruct (channel_step_raise _ _ _ Hc) as (Hch & _ & _).
    rewrite E, length_app, (Hnone Hch). lia.
Qed.

Lemma channel_step_held st r st' ch :
  channel_step AUTH_SCOPES rt st r st' ->
  _grpc_channel (self st) = Some ch ->
  r = Ok ch /\ st' = st.
Proof. destruct 1; intros; simplify_eq; done. Qed.

Lemma channel_step_frame st r st' :
  channel_step AUTH_SCOPES rt st r st' ->
  _host (self st') = _host (self st) /\
  _credentials (self st') = _credentials (self st).
Proof. by destruct 1. Qed.

(** X1: an access that raises stores nothing.  What it read was not in
    the cache and still is not; the stub table and the operations client are
    as before; an instance that held a channel is unchanged, and one that did
    not keeps the channel if the helper had returned one before the failure.
    The failure itself is not remembered: the next access of the same
    property calls the runtime again. *)
Theorem failed_access_stores_nothing op st e st' :
  access AUTH_SCOPES rt op st = (Raise e, st') ->
  cache_miss op st /\
  cache_miss op st' /\
  _stubs (self st') = _stubs (self st) /\
  dict_operations_client (self st') = dict_operations_client (self st) /\
  (forall ch, _grpc_channel (self st) = Some ch -> self st' = self st) /\
  (forall ch,
     _grpc_channel (self st) = None -> lazy_reply AUTH_SCOPES rt st = Ok ch ->
     _grpc_channel (self st') = Some ch) /\
  length (world st') < length (world (snd (access AUTH_SCOPES rt op st'))).
Proof.
  intros Hacc. pose proof (access_step op st) as Hs. rewrite Hacc in Hs. simpl in Hs.
  assert (cache_miss op st /\ cache_miss op st' /\
          _stubs (self st') = _stubs (self st) /\
          dict_operations_client (self st') = dict_operations_client (self st) /\
          (forall ch, _grpc_channel (self st) = Some ch -> self st' = self st) /\
          (forall ch,
             _grpc_channel (self st) = None -> lazy_reply AUTH_SCOPES rt st = Ok ch ->
             _grpc_channel (self st') = Some ch)) as H.
  { inversion Hs as [? ? ? Hc | | ? ? ? Hd Hc | | ? ch ? ? Hd Hc Hr
                    | | ? ? ? ? Hn Hc | | ? ? ch ? ? Hn Hc Hr]; subst; simpl;
      try (destruct (channel_step_raise _ _ _ Hc) as (Hch & Hr & ->); simpl;
           repeat split; try done; intros; congruence);
      destruct (channel_step_stubs _ _ _ Hc) as [Es Ed];
      (split; [done |]; split; [congruence |]; split; [done |]; split; [done |]);
      (split; [intros c Hch; by destruct (channel_step_held _ _ _ _ Hc Hch) as [_ ->] |]);
      intros c Hch Hr'; inversion Hc; subst; simpl; congruence. }
  destruct H as (H1 & H2 & H3 & H4 & H5 & H6). repeat split; try done.
  eapply step_miss_calls; [apply access_step | done].
Qed.

(** ** What an access leaves alone *)

(** X2: the properties are independent of one another.  Reading the
    property of a method changes no entry of the stub table but its own;
    [grpc_channel] and [operations_client] change none; only
    [operations_client] changes the operations client; and no property changes
    the host or the credentials the base constructor stored. *)
Theorem access_frame op st :
  let st' := snd (access AUTH_SCOPES rt op st) in
  (forall name,
     (forall m, op = Get_rpc m -> name <> method_name m) ->
     _stubs (self st') !! name = _stubs (self st) !! name) /\
  (op <> Get_operations_client ->
   dict_operations_client (self st') = dict_operations_client (self st)) /\
  _host (self st') = _host (self st) /\
  _credentials (self st') = _credentials (self st).
Proof.
  intros st'. pose proof (access_step op st) as Hs. fold st' in Hs.
  pose proof (step_extends _ _ _ _ Hs) as He.
  split; [| split; [| split; [apply (ext_host _ _ He) | apply (ext_credentials _ _ He)]]].
  - intros name Hname.
    destruct Hs as [st r st' Hc | st c Hd | st e st1 Hd Hc | st ch st1 c Hd Hc Hr
                   | st ch st1 e Hd Hc Hr | m st stub Hs | m st e st1 Hs Hc
                   | m st ch st1 stub Hs Hc Hr | m st ch st1 e Hs Hc Hr];
      try done; destruct (channel_step_stubs _ _ _ Hc) as [Es _]; simpl;
      rewrite ?Es; try done.
    apply lookup_insert_ne. intros E. by apply (Hname m).
  - intros Hop.
    destruct Hs as [st r st' Hc | st c Hd | st e st1 Hd Hc | st ch st1 c Hd Hc Hr
                   | st ch st1 e Hd Hc Hr | m st stub Hs | m st e st1 Hs Hc
                   | m st ch st1 stub Hs Hc Hr | m st ch st1 e Hs Hc Hr];
      try done; by destruct (channel_step_stubs _ _ _ Hc) as [_ Ed].
Qed.

(** X3: what a property costs.  An access makes at most two external
    calls, at most one when the instance holds a channel, and none when what
    it reads is in the cache. *)
Theorem access_call_bound op st :
  exists evs,
    world (snd (access AUTH_SCOPES rt op st)) = world st ++ evs /\
    length evs <= 2 /\
    (is_Some (_grpc_channel (self st)) -> length evs <= 1) /\
    (~ cache_miss op st -> evs = []).
Proof.
  pose proof (access_step op st) as Hs.
  destruct Hs as [st r st' Hc | st c Hd | st e st1 Hd Hc | st ch st1 c Hd Hc Hr
                 | st ch st1 e Hd Hc Hr | m st stub Hs | m st e st1 Hs Hc
                 | m st ch st1 stub Hs Hc Hr | m st ch st1 e Hs Hc Hr];
    try (exists []; rewrite app_nil_r; simpl; repeat split; auto; lia);
    destruct (channel_step_calls _ _ _ Hc) as (evs & E & Hle & Hsome & Hnone); simpl.
  - exists evs. repeat split; [done | lia | lia |]. intros Hhit.
    destruct (_grpc_channel (self st)) eqn:G; [by apply Hsome | done].
  - exists evs. repeat split; [done | lia | lia | done].
  - eexists. rewrite E, <- app_assoc. split; [done |]. rewrite length_app. simpl.
    repeat split; [lia | | done]. intros Hch. rewrite (Hsome Hch). simpl. lia.
  - eexists. rewrite E, <- app_assoc. split; [done |]. rewrite length_app. simpl.
    repeat split; [lia | | done]. intros Hch. rewrite (Hsome Hch). simpl. lia.
  - exists evs. repeat split; [done | lia | lia | done].
  - eexists. rewrite E, <- app_assoc. split; [done |]. rewrite length_app. simpl.
    repeat split; [lia | | done]. intros Hch. rewrite (Hsome Hch). simpl. lia.
  - eexists. rewrite E, <- app_assoc. split; [done |]. rewrite length_app. simpl.
    repeat split; [lia | | done]. intros Hch. rewrite (Hsome Hch). simpl. lia.
Qed.

(** ** What the constructor leaves to the properties *)





Lemma init_fresh host credentials cf scopes channel mtls ccs qp tr0 inst tr :
  __init__ AUTH_SCOPES rt host credentials cf scopes channel mtls ccs qp tr0
    = (Ok inst, tr) ->
  _stubs inst = ∅ /\ dict_operations_client inst = None.
Proof. run_init. repeat case_match; intros; simplify_eq; done. Qed.


(** ** One channel under everything *)

Lemma client_ok_extends st st' c :
  extends st st' -> client_ok st ->
  dict_operations_client (self st) = Some c ->
  exists ch,
    _grpc_channel (self st') = Some ch /\
    (Call_OperationsAsyncClient ch, Ok (RObj c)) ∈ world st'.
Proof.
  intros He Hok Hd. destruct (Hok c Hd) as (ch & Hch & Hin).
  exists ch. split; [by apply (ext_channel _ _ He) |].
  destruct (ext_world _ _ He) as [evs ->]. apply elem_of_app. by left.
Qed.

Lemma step_client_ok op st r st' :
  step AUTH_SCOPES rt op st r st' -> client_ok st -> client_ok st'.
Proof.
  intros Hstep Hok. pose proof (step_extends _ _ _ _ Hstep) as He.
  destruct Hstep as [st r st' Hc | st c Hd | st e st1 Hd Hc | st ch st1 c Hd Hc Hr
                | st ch st1 e Hd Hc Hr | m st stub Hs | m st e st1 Hs Hc
                | m st ch st1 stub Hs Hc Hr | m st ch st1 e Hs Hc Hr];
    try done;
    destruct (channel_step_stubs _ _ _ Hc) as [_ Ed];
    intros c' Hc'; simpl in Hc'; rewrite ?Ed in Hc';
    try (by eapply client_ok_extends).
  simplify_eq. exists ch. simpl. split; [by eapply channel_step_holds |].
  apply elem_of_app. right. constructor.
Qed.

Lemma reachable_client_ok tr0 st :
  reachable AUTH_SCOPES rt tr0 st -> client_ok st.
Proof.
  induction 1 as [host credentials cf scopes channel mtls ccs qp inst tr Hinit
                 | st op Hreach IH].
  - destruct (init_fresh _ _ _ _ _ _ _ _ _ _ _ Hinit) as [_ Hd].
    intros c. simpl. by rewrite Hd.
  - eapply step_client_ok; [apply access_step | done].
Qed.

(** X5: everything an instance holds is built on its one channel.  On an
    instance built by the constructor and read any number of times, every
    stub in the table and the operations client were returned by calls on the
    channel the instance holds, each stub for the method it is stored under;
    and an instance that holds no channel holds no stub and no operations
    client. *)
Theorem stubs_and_client_share_channel tr0 st :
  reachable AUTH_SCOPES rt tr0 st ->
  (forall ch,
     _grpc_channel (self st) = Some ch ->
     (forall name stub,
        _stubs (self st) !! name = Some stub ->
        exists m, name = method_name m /\ (stub_call m ch, Ok (RObj stub)) ∈ world st) /\
     (forall c,
        dict_operations_client (self st) = Some c ->
        (Call_OperationsAsyncClient ch, Ok (RObj c)) ∈ world st)) /\
  (_grpc_channel (self st) = None ->
   _stubs (self st) = ∅ /\ dict_operations_client (self st) = None).
Proof.
  intros Hreach. destruct (reachable_invariants _ _ Hreach) as [Hs _].
  pose proof (reachable_client_ok _ _ Hreach) as Hc. split.
  - intros ch Hch. split.
    + intros name stub Hn. destruct (Hs name stub Hn) as (m & ch' & -> & Hch' & Hin).
      exists m. split; [done |]. unfold stub_call. congruence.
    + intros c Hd. destruct (Hc c Hd) as (ch' & Hch' & Hin). congruence.
  - intros Hnone. split.
    + apply map_empty. intros name. destruct (_stubs (self st) !! name) eqn:Hn; [| done].
      destruct (Hs _ _ Hn) as (m & ch' & _ & Hch' & _). congruence.
    + destruct (dict_operations_client (self st)) eqn:Hd; [| done].
      destruct (Hc _ Hd) as (ch' & Hch' & _). congruence.
Qed.

(** ** The calls of a run *)

Lemma property_call_extends st st' ev :
  extends st st' -> property_call AUTH_SCOPES (self st) ev ->
  property_call AUTH_SCOPES (self st') ev.
Proof.
  intros He. unfold property_call, lazy_call.
  rewrite (ext_host _ _ He), (ext_credentials _ _ He).
  destruct (fst ev); try done; intros H; by apply (ext_channel _ _ He).
Qed.

Lemma channel_step_property_calls st r st' :
  channel_step AUTH_SCOPES rt st r st' ->
  exists evs, world st' = world st ++ evs /\
              Forall (property_call AUTH_SCOPES (self st')) evs.
Proof.
  destruct 1 as [st ch Hch | st ch Hch Hr | st e Hch Hr].
  - exists []. split; [by rewrite app_nil_r | constructor].
  - eexists. split; [done |]. by repeat constructor.
  - eexists. split; [done |]. by repeat constructor.
Qed.

Lemma step_property_calls op st r st' :
  step AUTH_SCOPES rt op st r st' ->
  exists evs, world st' = world st ++ evs /\
              Forall (property_call AUTH_SCOPES (self st')) evs.
Proof.
  intros Hstep.
  destruct Hstep as [st r st' Hc | st c Hd | st e st1 Hd Hc | st ch st1 c Hd Hc Hr
                | st ch st1 e Hd Hc Hr | m st stub Hs | m st e st1 Hs Hc
                | m st ch st1 stub Hs Hc Hr | m st ch st1 e Hs Hc Hr];
    try (eapply channel_step_property_calls; eassumption);
    try (exists []; split; [by rewrite app_nil_r | constructor]);
    destruct (channel_step_property_calls _ _ _ Hc) as (evs & E & Q);
    pose proof (channel_step_holds _ _ _ Hc) as Hch;
    (eexists; simpl; split; [by rewrite E, <- app_assoc |]);
    (apply Forall_app_2; [| by repeat constructor]);
    try exact Q;
    (eapply Forall_impl; [exact Q |]); intros [c0 r0];
    unfold property_call, lazy_call; by destruct c0.
Qed.

Lemma run_property_calls ops st :
  exists evs,
    world (run AUTH_SCOPES rt ops st) = world st ++ evs /\
    Forall (property_call AUTH_SCOPES (self (run AUTH_SCOPES rt ops st))) evs.
Proof.
  revert st. induction ops as [|op ops IH]; intros st; simpl.
  - exists []. split; [by rewrite app_nil_r | constructor].
  - destruct (step_property_calls _ _ _ _ (access_step op st)) as (e1 & E1 & Q1).
    destruct (IH (snd (access AUTH_SCOPES rt op st))) as (e2 & E2 & Q2).
    exists (e1 ++ e2). split; [by rewrite E2, E1, app_assoc |].
    apply Forall_app_2; [| done].
    eapply Forall_impl; [exact Q1 |]. intros ev. apply property_call_extends, run_extends.
Qed.

(** X6: what the properties call, over any sequence of reads of any
    instance.  Every external call is [unary_unary] or [OperationsAsyncClient]
    on the channel the instance holds at the end, or the channel helper with
    the host and the credentials of the instance, no credentials file, the
    scopes of the class, no quota project and no keyword argument.  The
    properties never run the base constructor and never ask for SSL
    credentials. *)
Theorem properties_call_only ops st :
  exists evs,
    world (run AUTH_SCOPES rt ops st) = world st ++ evs /\
    Forall (property_call AUTH_SCOPES (self (run AUTH_SCOPES rt ops st))) evs /\
    _host (self (run AUTH_SCOPES rt ops st)) = _host (self st) /\
    _credentials (self (run AUTH_SCOPES rt ops st)) = _credentials (self st).
Proof.
  destruct (run_property_calls ops st) as (evs & E & Q). exists evs.
  pose proof (run_extends ops st) as He.
  repeat split; [done | done | apply (ext_host _ _ He) | apply (ext_credentials _ _ He)].
Qed.

Lemma step_uses_channel op st r st' ch :
  step AUTH_SCOPES rt op st r st' ->
  _grpc_channel (self st) = Some ch ->
  exists evs, world st' = world st ++ evs /\ Forall (uses_channel ch) evs.
Proof.
  intros Hstep Hch.
  destruct Hstep as [st r st' Hc | st c Hd | st e st1 Hd Hc | st ch1 st1 c Hd Hc Hr
                | st ch1 st1 e Hd Hc Hr | m st stub Hs | m st e st1 Hs Hc
                | m st ch1 st1 stub Hs Hc Hr | m st ch1 st1 e Hs Hc Hr];
    try (exists []; split; [by rewrite app_nil_r | constructor]);
    destruct (channel_step_held _ _ _ _ Hc Hch) as [E ->]; simplify_eq;
    try (exists []; split; [by rewrite app_nil_r | constructor]);
    (eexists; split; [done |]; by repeat constructor).
Qed.

Lemma run_uses_channel ops st ch :
  _grpc_channel (self st) = Some ch ->
  _grpc_channel (self (run AUTH_SCOPES rt ops st)) = Some ch /\
  exists evs,
    world (run AUTH_SCOPES rt ops st) = world st ++ evs /\
    Forall (uses_channel ch) evs.
Proof.
  intros Hch. split; [by apply (ext_channel _ _ (run_extends ops st)) |].
  revert st Hch. induction ops as [|op ops IH]; intros st Hch; simpl.
  - exists []. split; [by rewrite app_nil_r | constructor].
  - pose proof (access_step op st) as Hs.
    destruct (step_uses_channel _ _ _ _ _ Hs Hch) as (e1 & E1 & Q1).
    destruct (ext_channel _ _ (step_extends _ _ _ _ Hs) ch Hch) as [Hch' _].
    destruct (IH _ Hch') as (e2 & E2 & Q2).
    exists (e1 ++ e2). split; [by rewrite E2, E1, app_assoc | by apply Forall_app_2].
Qed.

(** X7: a transport built on a channel of the caller uses that channel
    and no other.  After the constructor has returned on a [channel]
    argument, whatever is read from the instance: it holds that channel, the
    channel helper is never called, not even to fail, and every stub and the
    operations client are asked of that channel. *)
Theorem explicit_channel_is_used host credentials credentials_file scopes ch
    api_mtls_endpoint client_cert_source quota_project_id tr0 inst tr ops :
  __init__ AUTH_SCOPES rt host credentials credentials_file scopes (Some ch)
    api_mtls_endpoint client_cert_source quota_project_id tr0 = (Ok inst, tr) ->
  let st := run AUTH_SCOPES rt ops {| self := inst; world := tr |} in
  _grpc_channel (self st) = Some ch /\
  grpc_channel AUTH_SCOPES rt st = (Ok ch, st) /\
  exists evs, world st = tr ++ evs /\ Forall (uses_channel ch) evs.
Proof.
  rewrite init_given. intros Hinit st.
  assert (_grpc_channel inst = Some ch) as Hch.
  { destruct (rt_base_init _ _ _ _ _ _ _); simpl in Hinit; by simplify_eq. }
  destruct (run_uses_channel ops {| self := inst; world := tr |} ch Hch) as [H1 H2].
  split; [done |]. split; [by apply grpc_channel_hit | done].
Qed.

(** ** Nothing is made twice *)









(** ** The host of the mutual-TLS channel *)





(** X10: in the mutual-TLS branch the base constructor runs after the
    channel is open, and only then.  On an endpoint that is not empty (and
    without a channel) the constructor creates at most one channel, and the
    base constructor is called exactly when one was created.  So when the base
    constructor raises, the constructor raises with a channel already
    created, which no instance holds. *)
Theorem mtls_base_after_channel endpoint host credentials credentials_file scopes
    client_cert_source quota_project_id tr r tr' :
  endpoint <> "" ->
  __init__ AUTH_SCOPES rt host credentials credentials_file scopes None
    (Some endpoint) client_cert_source quota_project_id tr = (r, tr') ->
  exists evs,
    tr' = tr ++ evs /\
    channels_created evs <= 1 /\
    (existsb is_base_init evs = true <-> channels_created evs = 1) /\
    (forall e c,
       last evs = Some (c, Raise e) -> is_base_init (c, Raise e) = true ->
       r = Raise e /\ channels_created evs = 1).
Proof.
  intros Hne. destruct endpoint as [|a s]; [done |]. run_init.
  destruct client_cert_source as [cb|]; simpl; repeat case_match; intros; simplify_eq.
  all: rewrite <- ?app_assoc; simpl.
  all: repeat match goal with H : ?x = Ok _ |- context [?x] => rewrite H end;
       repeat match goal with H : ?x = Raise _ |- context [?x] => rewrite H end; simpl.
  all: eexists; split; [reflexivity |]; unfold channels_created; cbn.
  all: repeat split; intros; simplify_eq; try done; try lia.
Qed.

(** ** How much an instance holds *)

(** X11: the stub table is bounded.  On an instance built by the
    constructor and read any number of times, the table never holds more than
    nine stubs. *)
Theorem stub_table_bounded tr0 st :
  reachable AUTH_SCOPES rt tr0 st -> size (_stubs (self st)) <= 9.
Proof.
  intros Hreach.
  assert (dom (_stubs (self st)) ⊆ list_to_set (map method_name all_methods)) as Hsub.
  { intros name Hname. apply elem_of_dom in Hname.
    destruct (reachable_stub_names _ _ _ Hreach Hname) as [m ->].
    apply elem_of_list_to_set, list_elem_of_fmap. exists m. split; [done |].
    apply list_elem_of_In. destruct m; simpl; tauto. }
  apply subseteq_size in Hsub. rewrite size_dom in Hsub.
  etrans; [exact Hsub |]. by vm_compute.
Qed.

End Facts.

(** * The interface of the class, and the theorems at work *)

Lemma blank_constructed :
  __init__ cloud_platform online DEFAULT_HOST VNone None None None None None None []
  = (Ok (self blank), world blank).
Proof. reflexivity. Qed.

(** C4: the properties of the class that build a stub are nine, those of
    export assets, batch get assets history, create, get, list, update and
    delete feed, search all resources and search all IAM policies: one per
    method of the service and no other.  The class has two more properties,
    [grpc_channel] and [operations_client], and neither builds a stub; and no
    run of an instance stores a stub under any other name. *)
Theorem rpc_methods_exactly_nine :
  rpc_properties =
    ["export_assets"; "batch_get_assets_history"; "create_feed"; "get_feed";
     "list_feeds"; "update_feed"; "delete_feed"; "search_all_resources";
     "search_all_iam_policies"] /\
  length rpc_properties = 9 /\
  NoDup rpc_properties /\
  rpc_properties = map method_name all_methods /\
  (forall m : Method, m ∈ all_methods) /\
  (forall AUTH_SCOPES rt,
     map fst (properties AUTH_SCOPES rt)
     = ["grpc_channel"; "operations_client"] ++ rpc_properties) /\
  (forall AUTH_SCOPES rt tr0 st name,
     reachable AUTH_SCOPES rt tr0 st ->
     is_Some (_stubs (self st) !! name) ->
     name ∈ rpc_properties).
Proof.
  assert (rpc_properties = map method_name all_methods) as E by reflexivity.
  assert (forall m : Method, m ∈ all_methods) as Hall.
  { intros m. apply list_elem_of_In. destruct m; simpl; tauto. }
  repeat split; try reflexivity; try done.
  - rewrite E. apply NoDup_ListNoDup. simpl.
    repeat (constructor; [simpl; intuition discriminate |]). constructor.
  - intros AUTH_SCOPES rt tr0 st name Hreach Hs.
    destruct (reachable_stub_names _ _ _ _ _ Hreach Hs) as [m ->].
    rewrite E. apply list_elem_of_fmap. exists m. by split.
Qed.



(** The first [grpc_channel] of a new instance opens channel 1; the second
    returns it again and opens nothing. *)
Lemma grpc_channel_idempotent_witness :
  let st1 := snd (grpc_channel cloud_platform online blank) in
  grpc_channel cloud_platform online blank = (Ok 1, st1) /\
  _grpc_channel (self st1) = Some 1 /\
  grpc_channel cloud_platform online st1 = (Ok 1, st1) /\
  channels_created (world st1) = 1 /\
  one_channel [] blank.
Proof.
  intros st1.
  assert (grpc_channel cloud_platform online blank = (Ok 1, st1)) as Hacc by reflexivity.
  assert (_grpc_channel (self st1) = Some 1) as Hch by reflexivity.
  assert (reachable cloud_platform online [] blank) as Hreach.
  { apply (reachable_init DEFAULT_HOST VNone None None None None None None
             (self blank) (world blank)).
    reflexivity. }
  destruct (grpc_channel_idempotent cloud_platform online blank) as (_ & Hfirst & Hrun).
  destruct (grpc_channel_idempotent cloud_platform online st1) as (Hhit & _ & _).
  split; [exact Hacc |]. split; [exact (proj1 (Hfirst 1 st1 Hacc)) |].
  split; [exact (Hhit 1 Hch) |]. split; [reflexivity |].
  exact (Hrun [] Hreach).
Defined.

(** The operations client of a new instance is made over channel 1, and is
    returned again after other reads. *)
Lemma operations_client_cached_witness :
  let st1 := snd (operations_client cloud_platform online blank) in
  let st2 := run cloud_platform online [Get_rpc ExportAssets] st1 in
  dict_operations_client (self blank) = None /\
  operations_client cloud_platform online blank = (Ok 2, st1) /\
  (exists ch st0,
     grpc_channel cloud_platform online blank = (Ok ch, st0) /\
     rt_OperationsAsyncClient online (world st0) ch = Ok 2 /\
     st1 = logged (Call_OperationsAsyncClient ch) (Ok 2)
             (set_operations_client 2 (self st0)) st0) /\
  operations_client cloud_platform online st2 = (Ok 2, st2) /\
  operations_client cloud_platform online st1 = (Ok 2, st1).
Proof.
  intros st1 st2.
  assert (dict_operations_client (self blank) = None) as Hnone by reflexivity.
  assert (operations_client cloud_platform online blank = (Ok 2, st1)) as Hacc
    by reflexivity.
  assert (dict_operations_client (self st1) = Some 2) as Hd by reflexivity.
  destruct (operations_client_cached cloud_platform online blank)
    as (_ & Hmade & Hlater).
  destruct (operations_client_cached cloud_platform online st1) as (Hhit & _ & _).
  split; [exact Hnone |]. split; [exact Hacc |].
  split; [exact (Hmade 2 st1 Hnone Hacc) |].
  split; [exact (proj2 (Hlater 2 st1 Hacc) [Get_rpc ExportAssets]) |].
  exact (Hhit 2 Hd).
Defined.

(** A run of three reads stores stubs under two of the nine names. *)
Lemma rpc_methods_exactly_nine_witness :
  let st := run cloud_platform online
              [Get_rpc ListFeeds; Get_operations_client; Get_rpc UpdateFeed] blank in
  is_Some (_stubs (self st) !! "list_feeds") /\
  "list_feeds" ∈ rpc_properties /\
  length rpc_properties = 9.
Proof.
  intros st.
  assert (reachable cloud_platform online [] st) as Hreach.
  { apply reachable_run.
    apply (reachable_init DEFAULT_HOST VNone None None None None None None
             (self blank) (world blank)).
    reflexivity. }
  assert (is_Some (_stubs (self st) !! "list_feeds")) as Hs.
  { exists 2. reflexivity. }
  destruct rpc_methods_exactly_nine as (_ & Hlen & _ & _ & _ & _ & Hnames).
  split; [exact Hs |]. split; [| exact Hlen].
  exact (Hnames cloud_platform online [] st "list_feeds" Hreach Hs).
Defined.




(** When no channel can be opened, [export_assets] raises what the helper
    raised, stores nothing, and the next access asks the helper again. *)
Example export_assets_offline :
  let st1 := snd (method_property cloud_platform offline ExportAssets blank) in
  fst (method_property cloud_platform offline ExportAssets blank)
  = Raise (Raised "RpcError" "unavailable") /\
  self st1 = self blank /\
  world st1
  = world blank ++
    [(Call_create_channel DEFAULT_HOST VNone None (Some cloud_platform) None [],
      Raise (Raised "RpcError" "unavailable"))] /\
  length (world (snd (method_property cloud_platform offline ExportAssets st1))) = 3.
Proof. repeat split. Qed.

(** * The further properties at work *)

(** When the channel makes no stub, [export_assets] raises, the table stays
    empty, the channel opened on the way is kept, and the next access asks
    again. *)
Lemma failed_access_stores_nothing_witness :
  let e := Raised "UsageError" "channel closed" in
  let st' := snd (access cloud_platform stubless (Get_rpc ExportAssets) blank) in
  access cloud_platform stubless (Get_rpc ExportAssets) blank = (Raise e, st') /\
  _stubs (self st') = _stubs (self blank) /\
  _grpc_channel (self st') = Some 1 /\
  length (world st') < length (world (snd (access cloud_platform stubless
                                             (Get_rpc ExportAssets) st'))).
Proof.
  intros e st'.
  assert (access cloud_platform stubless (Get_rpc ExportAssets) blank = (Raise e, st'))
    as Hacc by reflexivity.
  destruct (failed_access_stores_nothing cloud_platform stubless
              (Get_rpc ExportAssets) blank e st' Hacc)
    as (_ & _ & Hs & _ & _ & Hkept & Hretry).
  split; [exact Hacc |]. split; [exact Hs |].
  split; [exact (Hkept 1 eq_refl eq_refl) | exact Hretry].
Defined.

(** Reading [create_feed] leaves the stub of [export_assets] and the
    operations client where they are. *)
Lemma access_frame_witness :
  let st := run cloud_platform online [Get_rpc ExportAssets; Get_operations_client]
              blank in
  let st' := snd (access cloud_platform online (Get_rpc CreateFeed) st) in
  _stubs (self st') !! "export_assets" = _stubs (self st) !! "export_assets" /\
  _stubs (self st) !! "export_assets" = Some 2 /\
  dict_operations_client (self st') = dict_operations_client (self st).
Proof.
  intros st st'.
  destruct (access_frame cloud_platform online (Get_rpc CreateFeed) st)
    as (Hs & Hd & _ & _).
  split; [| split; [reflexivity |]].
  - apply (Hs "export_assets"). intros m Hm. injection Hm as <-. discriminate.
  - apply Hd. discriminate.
Defined.

(** On an instance that holds a channel, the first [get_feed] makes one
    call, and the second makes none. *)
Lemma access_call_bound_witness :
  let st := snd (access cloud_platform online Get_grpc_channel blank) in
  let st1 := snd (access cloud_platform online (Get_rpc GetFeed) st) in
  (exists evs, world st1 = world st ++ evs /\ length evs <= 1) /\
  (exists evs, world (snd (access cloud_platform online (Get_rpc GetFeed) st1))
               = world st1 ++ evs /\ evs = []).
Proof.
  intros st st1. split.
  - destruct (access_call_bound cloud_platform online (Get_rpc GetFeed) st)
      as (evs & E & _ & Hone & _).
    exists evs. split; [exact E |]. apply Hone. exists 1. reflexivity.
  - destruct (access_call_bound cloud_platform online (Get_rpc GetFeed) st1)
      as (evs & E & _ & _ & Hhit).
    exists evs. split; [exact E |]. apply Hhit. simpl. discriminate.
Defined.


(** After [list_feeds] and [operations_client], the stub and the client are
    both built on channel 1. *)
Lemma stubs_and_client_share_channel_witness :
  let st := run cloud_platform online [Get_rpc ListFeeds; Get_operations_client]
              blank in
  reachable cloud_platform online [] st /\
  _grpc_channel (self st) = Some 1 /\
  (exists m, "list_feeds" = method_name m /\
             (stub_call m 1, Ok (RObj 2)) ∈ world st) /\
  (Call_OperationsAsyncClient 1, Ok (RObj 3)) ∈ world st.
Proof.
  intros st.
  assert (reachable cloud_platform online [] st) as Hreach.
  { apply reachable_run.
    apply (reachable_init DEFAULT_HOST VNone None None None None None None
             (self blank) (world blank)).
    reflexivity. }
  destruct (stubs_and_client_share_channel cloud_platform online [] st Hreach)
    as [Hheld _].
  destruct (Hheld 1 eq_refl) as [Hstubs Hclient].
  split; [exact Hreach |]. split; [reflexivity |].
  split; [exact (Hstubs "list_feeds" 2 eq_refl) | exact (Hclient 3 eq_refl)].
Defined.

(** A transport built on channel 42 asks [get_feed] and the operations
    client of channel 42. *)
Lemma explicit_channel_is_used_witness :
  let inst := new_instance (Some 42) (DEFAULT_HOST, VBool false) in
  let tr := [(Call_base_init DEFAULT_HOST (VBool false) None (Some cloud_platform) None,
              Ok (RAttrs DEFAULT_HOST (VBool false)))] in
  let st := run cloud_platform online [Get_rpc GetFeed; Get_operations_client]
              {| self := inst; world := tr |} in
  __init__ cloud_platform online DEFAULT_HOST (VObj 7) None None (Some 42) None None
    None [] = (Ok inst, tr) /\
  _grpc_channel (self st) = Some 42 /\
  grpc_channel cloud_platform online st = (Ok 42, st) /\
  exists evs, world st = tr ++ evs /\ Forall (uses_channel 42) evs.
Proof.
  intros inst tr st.
  assert (__init__ cloud_platform online DEFAULT_HOST (VObj 7) None None (Some 42) None
            None None [] = (Ok inst, tr)) as Hinit by reflexivity.
  split; [exact Hinit |].
  exact (explicit_channel_is_used cloud_platform online DEFAULT_HOST (VObj 7) None None
           42 None None None [] inst tr [Get_rpc GetFeed; Get_operations_client] Hinit).
Defined.



(** When the base constructor rejects the arguments of a mutual-TLS
    transport, the constructor raises and a channel has been created. *)
Lemma mtls_base_after_channel_witness :
  let e := Raised "DuplicateCredentialArgs" "mutually exclusive" in
  let x := __init__ cloud_platform strict DEFAULT_HOST (VObj 7) (Some "key.json") None
             None (Some "mtls.example.com") None None [] in
  "mtls.example.com" <> "" /\
  fst x = Raise e /\
  exists evs,
    snd x = [] ++ evs /\ channels_created evs = 1 /\ existsb is_base_init evs = true.
Proof.
  intros e x.
  assert ("mtls.example.com" <> "") as Hne by discriminate.
  destruct (mtls_base_after_channel cloud_platform strict "mtls.example.com"
              DEFAULT_HOST (VObj 7) (Some "key.json") None None None [] (fst x) (snd x)
              Hne eq_refl)
    as (evs & E & _ & Hiff & _).
  split; [exact Hne |]. split; [reflexivity |].
  exists evs. split; [exact E |].
  assert (existsb is_base_init evs = true) as Hbase.
  { simpl in E. rewrite <- E. reflexivity. }
  split; [exact (proj1 Hiff Hbase) | exact Hbase].
Defined.

(** After three reads the table holds two stubs. *)
Lemma stub_table_bounded_witness :
  let st := run cloud_platform online
              [Get_rpc SearchAllResources; Get_rpc SearchAllIamPolicies;
               Get_rpc SearchAllResources] blank in
  reachable cloud_platform online [] st /\
  size (_stubs (self st)) = 2 /\
  size (_stubs (self st)) <= 9.
Proof.
  intros st.
  assert (reachable cloud_platform online [] st) as Hreach.
  { apply reachable_run.
    apply (reachable_init DEFAULT_HOST VNone None None None None None None
             (self blank) (world blank)).
    reflexivity. }
  split; [exact Hreach |]. split; [reflexivity |].
  exact (stub_table_bounded cloud_platform online [] st Hreach).
Defined.
